(** * piwardrive native helpers: [ckml.parse_coords] and the [cgeom] functions

    A shallow embedding of the two C extension modules of the repository,

    - [src/src/piwardrive/ckml.c]: [parse_coords], the KML coordinate parser;
    - [src/cgeom.c]: [py_haversine_distance], [py_polygon_area] and
      [py_point_in_polygon];

    together with the properties their specification states and further
    properties of the code: white space and composition in [parse_coords],
    tokens that are not coordinates, items that are no tuples, repeated
    vertices, NaN and the infinities.

    What the model fixes:

    - A C [double] is a primitive binary64 float, and every arithmetic
      operation rounds once, to nearest even, as ISO C Annex F has it (no
      fused multiply-add, no excess precision).  All NaNs are one value.
    - The buffer of [parse_coords] is a list of bytes; a pointer into it is
      the list of the bytes from the pointer to [end].
    - The C library is not part of the repository.  [isspace] and [strtod]
      are modelled after ISO C in the C locale, [strtod] with correct
      rounding.  [sin], [cos] and [atan2] are a record of three functions,
      constrained where a property needs it by laws that Annex F states or
      that every libm in use satisfies.
    - A function returns [None] where the C function returns [NULL] with an
      exception set; failures of memory allocation are left out.
    - The argument conversion of [parse_coords] follows CPython's
      documentation of the format [s#]: a [str] is encoded in UTF-8, which
      fails on a lone surrogate; a bytes object is passed as it is. *)

From Stdlib Require Import ZArith Bool Ascii String List Permutation Floats Lia.
Import ListNotations.

#[local] Set Warnings "-inexact-float".
#[local] Open Scope Z_scope.

(* ================================================================== *)
(** * Binary64 support *)
(* ================================================================== *)

Module Binary64.

(** The double nearest to [m * 2^e] (ties to even); [neg] is the sign of a
    zero result. *)
Definition round_Z (neg : bool) (m e : Z) : float :=
  SF2Prim (binary_normalize prec emax (if neg then - m else m) e neg).

(** The double nearest to the decimal [m * 10^e], [0 <= m]: what a C
    compiler stores for a decimal literal and what [strtod] returns for a
    decimal subject sequence.  For a negative exponent the quotient is
    computed with more than 64 significant bits and a sticky bit, which the
    final rounding to at most 53 bits reads correctly. *)
Definition dec2double (neg : bool) (m e : Z) : float :=
  if m =? 0 then (if neg then PrimFloat.neg_zero else PrimFloat.zero)
  else if 0 <=? e then round_Z neg (m * 10 ^ e) 0
  else
    let d := 10 ^ (- e) in
    let s := Z.max 0 (Z.log2 d + 66 - Z.log2 m) in
    let q := (m * 2 ^ s) / d in
    let r := (m * 2 ^ s) mod d in
    round_Z neg (2 * q + (if r =? 0 then 0 else 1)) (- s - 1).

(** Sign bit clear, or NaN. *)
Definition sign_clear (x : float) : bool :=
  match Prim2SF x with
  | S754_zero s | S754_infinity s | S754_finite s _ _ => negb s
  | S754_nan => true
  end.

(** ** Predicates on the values of the format *)

(** Zero or a finite number. *)
Definition finite_sf (X : spec_float) : Prop :=
  match X with
  | S754_zero _ | S754_finite _ _ _ => True
  | _ => False
  end.

(** NaN, or a value with sign [s]. *)
Definition has_sign (s : bool) (X : spec_float) : Prop :=
  match X with
  | S754_zero s' | S754_infinity s' | S754_finite s' _ _ => s' = s
  | S754_nan => True
  end.

(** Zero or a finite number, with its sign bit clear and an exponent of at
    most [be]. *)
Definition small_nonneg (be : Z) (X : spec_float) : Prop :=
  match X with
  | S754_zero s => s = false
  | S754_finite s _ e => s = false /\ e <= be
  | _ => False
  end.

(** NaN, or the infinity of sign [s]. *)
Definition nan_or_inf (s : bool) (X : spec_float) : Prop :=
  X = S754_nan \/ X = S754_infinity s.


(** The number of bits the rounding of [m * 2^e] shifts out. *)
Definition shift_of (m e : Z) : Z :=
  Z.max (fexp prec emax (Zdigits2 m + e) - e) 0.

(** A bound on the exponent after rounding a mantissa of at most [d]
    digits at an exponent of at most [e]. *)
Definition round_bound (e d : Z) : Z :=
  Z.max e (Z.max (e + d - prec) emin) + Z.max 0 (d + 1 - prec).


End Binary64.

(* ================================================================== *)
(** * The C library functions [ckml.c] calls *)
(* ================================================================== *)

Module LibC.

Import Binary64.

Definition text := list ascii.

(** The bytes of a string literal. *)
Definition str (s : string) : text := list_ascii_of_string s.

Definition code (c : ascii) : Z := Z.of_N (N_of_ascii c).

(** [<ctype.h>], C locale. *)
Definition isspace (c : ascii) : bool :=
  (code c =? 32) || ((9 <=? code c) && (code c <=? 13)).

Definition isdigit (c : ascii) : bool := (48 <=? code c) && (code c <=? 57).

Definition isupper (c : ascii) : bool := (65 <=? code c) && (code c <=? 90).

Definition islower (c : ascii) : bool := (97 <=? code c) && (code c <=? 122).

Definition isalpha (c : ascii) : bool := isupper c || islower c.

Definition isxdigit (c : ascii) : bool :=
  isdigit c || ((65 <=? code c) && (code c <=? 70))
            || ((97 <=? code c) && (code c <=? 102)).

Definition tolower (c : ascii) : ascii :=
  if isupper c then ascii_of_N (N_of_ascii c + 32) else c.

(** Value of a (hexa)decimal digit. *)
Definition digit_val (c : ascii) : Z :=
  if isdigit c then code c - 48
  else if isupper c then code c - 55
  else code c - 87.

Definition number_val (base : Z) (ds : text) : Z :=
  fold_left (fun acc c => acc * base + digit_val c) ds 0.

(** Longest prefix whose characters satisfy [P], and what follows it. *)
Fixpoint span (P : ascii -> bool) (s : text) : text * text :=
  match s with
  | c :: s' =>
      if P c then let (a, b) := span P s' in (c :: a, b) else ([], s)
  | [] => ([], [])
  end.

Definition opt_sign (s : text) : bool * text :=
  match s with
  | c :: r =>
      if Ascii.eqb c "-" then (true, r)
      else if Ascii.eqb c "+" then (false, r)
      else (false, s)
  | [] => (false, s)
  end.

(** Digits, optionally with a radix point; at least one digit. *)
Definition mantissa (isd : ascii -> bool) (s : text)
  : option (text * text * text) :=
  let (ip, r1) := span isd s in
  let (fp, r2) :=
    match r1 with
    | c :: r => if Ascii.eqb c "." then span isd r else ([], r1)
    | [] => ([], r1)
    end in
  match ip, fp with
  | [], [] => None
  | _, _ => Some (ip, fp, r2)
  end.

(** Optional exponent part: a marker, an optional sign, decimal digits.
    Without a digit nothing is consumed. *)
Definition exponent (mark : ascii) (s : text) : Z * text :=
  match s with
  | c :: r =>
      if Ascii.eqb (tolower c) mark then
        let (neg, r1) := opt_sign r in
        let (ds, r2) := span isdigit r1 in
        match ds with
        | [] => (0, s)
        | _ => ((if neg then - number_val 10 ds else number_val 10 ds), r2)
        end
      else (0, s)
  | [] => (0, s)
  end.

Definition decimal (neg : bool) (s : text) : option (float * text) :=
  match mantissa isdigit s with
  | Some (ip, fp, r) =>
      let (e, r') := exponent "e" r in
      Some (dec2double neg (number_val 10 (ip ++ fp))
                       (e - Z.of_nat (length fp)), r')
  | None => None
  end.

Definition hexadecimal (neg : bool) (s : text) : option (float * text) :=
  match s with
  | z :: x :: r =>
      if Ascii.eqb z "0" && Ascii.eqb (tolower x) "x" then
        match mantissa isxdigit r with
        | Some (ip, fp, r2) =>
            let (e, r3) := exponent "p" r2 in
            Some (round_Z neg (number_val 16 (ip ++ fp))
                          (e - 4 * Z.of_nat (length fp)), r3)
        | None => None
        end
      else None
  | _ => None
  end.

(** [s] starts with the lower-case word [w], whatever the case in [s]. *)
Fixpoint match_ci (w s : text) : option text :=
  match w with
  | [] => Some s
  | a :: w' =>
      match s with
      | c :: s' => if Ascii.eqb (tolower c) a then match_ci w' s' else None
      | [] => None
      end
  end.

Definition is_nchar (c : ascii) : bool :=
  isdigit c || isalpha c || Ascii.eqb c "_".

Definition nan_payload (s : text) : text :=
  match s with
  | c :: r =>
      if Ascii.eqb c "(" then
        match snd (span is_nchar r) with
        | d :: r' => if Ascii.eqb d ")" then r' else s
        | [] => s
        end
      else s
  | [] => s
  end.

Definition special (neg : bool) (s : text) : option (float * text) :=
  match match_ci (list_ascii_of_string "inf") s with
  | Some r =>
      Some ((if neg then neg_infinity else infinity),
            match match_ci (list_ascii_of_string "inity") r with
            | Some r' => r'
            | None => r
            end)
  | None =>
      match match_ci (list_ascii_of_string "nan") s with
      | Some r => Some (nan, nan_payload r)
      | None => None
      end
  end.

(** The subject sequence: an optional sign, then infinity or NaN, a
    hexadecimal or a decimal floating constant. *)
Definition subject (s : text) : option (float * text) :=
  let (neg, s') := opt_sign s in
  match special neg s' with
  | Some res => Some res
  | None =>
      match hexadecimal neg s' with
      | Some res => Some res
      | None => decimal neg s'
      end
  end.

(** [strtod(nptr, &endptr)]: the value and the text at [endptr].  Leading
    white space is skipped; without a conversion the value is zero and
    [endptr] is [nptr] itself. *)
Definition strtod (s : text) : float * text :=
  match subject (snd (span isspace s)) with
  | Some res => res
  | None => (0%float, s)
  end.

(** ** Positions in a text *)

(** [r] is the text from some position of [s] on. *)
Definition suffix (r s : text) : Prop := exists p, s = p ++ r.

(** The characters that end every subject sequence. *)
Definition terminator (c : ascii) : bool := Ascii.eqb c "," || isspace c.

Definition extend {A : Type} (t : text) (x : A * text) : A * text :=
  (fst x, snd x ++ t).


End LibC.

(* ================================================================== *)
(** * [ckml.c] *)
(* ================================================================== *)

Module Ckml.

Import LibC.

(** A tuple built by [Py_BuildValue("(dd)", lat, lon)]. *)
Definition coord := (float * float)%type.

(** [while (p < end && P(p[0])) p++;] *)
Definition skip_while (P : ascii -> bool) (p : text) : text := snd (span P p).

(** The test [p < end && p[0] == ','], with the position after the comma. *)
Definition at_comma (p : text) : option text :=
  match p with
  | c :: p' => if Ascii.eqb c "," then Some p' else None
  | [] => None
  end.

(** Lines 23-38 of [ckml.c]: one pass of the outer loop from a position
    that is inside the buffer and not on white space.  Returns the tuple
    appended to the list and the position the pass ends at. *)
Definition parse_one (p : text) : coord * text :=
  let (lon, q) := strtod p in
  let p := q in
  let p := match at_comma p with Some p' => p' | None => p end in
  let (lat, q) := strtod p in
  let p := q in
  let p :=
    match at_comma p with
    | Some p' => snd (strtod p')      (* skip altitude *)
    | None => p
    end in
  ((lat, lon), skip_while (fun c => negb (isspace c)) p).

(** The outer [while (p < end)] loop.  The pointer [p] is the text from [p]
    to [end]; [fuel] bounds the number of passes. *)
Fixpoint parse_loop (fuel : nat) (p : text) (lst : list coord)
  : option (list coord) :=
  match fuel with
  | O => None
  | S fuel' =>
      match p with
      | [] => Some lst
      | _ :: _ =>
          match skip_while isspace p with
          | [] => Some lst                               (* break *)
          | (_ :: _) as p =>
              let (tup, p) := parse_one p in
              parse_loop fuel' p (lst ++ [tup])          (* PyList_Append *)
          end
      end
  end.

(** Lines 13 to 41 of [parse_coords], on the buffer [text] the conversion
    of the argument yields: every pass consumes at least one character, so
    [length text] passes and the final test fit in the fuel (see
    [parse_loop_total]). *)
Definition parse_coords (text : LibC.text) : option (list coord) :=
  parse_loop (S (length text)) text [].

(** ** The argument of a call *)

(** The objects [PyArg_ParseTuple(args, "s#", ...)] tells apart: a [str]
    with its code points, a bytes object with its bytes, anything else. *)
Inductive pyarg : Type :=
| PyUnicode (s : list Z)
| PyBytes (b : text)
| PyObject.

Definition byte (n : Z) : ascii := ascii_of_N (Z.to_N n).

(** A Unicode scalar value: a code point that is not a surrogate. *)
Definition scalar_value (cp : Z) : bool :=
  (0 <=? cp) && (cp <? 0x110000) &&
  negb ((0xD800 <=? cp) && (cp <=? 0xDFFF)).

(** A code point of the six characters [isspace] accepts. *)
Definition space_code (cp : Z) : bool :=
  (cp =? 32) || ((9 <=? cp) && (cp <=? 13)).

(** UTF-8 of one code point; a surrogate has none. *)
Definition utf8_char (cp : Z) : option text :=
  if negb (scalar_value cp) then None
  else if cp <? 0x80 then Some [byte cp]
  else if cp <? 0x800 then
    Some [byte (0xC0 + cp / 64); byte (0x80 + cp mod 64)]
  else if cp <? 0x10000 then
    Some [byte (0xE0 + cp / 4096); byte (0x80 + (cp / 64) mod 64);
          byte (0x80 + cp mod 64)]
  else
    Some [byte (0xF0 + cp / 262144); byte (0x80 + (cp / 4096) mod 64);
          byte (0x80 + (cp / 64) mod 64); byte (0x80 + cp mod 64)].

Fixpoint utf8_encode (s : list Z) : option text :=
  match s with
  | [] => Some []
  | cp :: s' =>
      match utf8_char cp, utf8_encode s' with
      | Some b, Some r => Some (b ++ r)
      | _, _ => None
      end
  end.

(** [PyArg_ParseTuple(args, "s#", &text, &len)]: one argument, a [str]
    that UTF-8 can encode or a bytes object; the buffer it yields. *)
Definition PyArg_ParseTuple_s (args : list pyarg) : option text :=
  match args with
  | [PyUnicode s] => utf8_encode s
  | [PyBytes b] => Some b
  | _ => None
  end.

(** [parse_coords(self, args)], lines 6 to 42: the conversion of the
    argument, with [NULL] when it fails, then the loop on the buffer. *)
Definition py_parse_coords (args : list pyarg) : option (list coord) :=
  match PyArg_ParseTuple_s args with
  | Some text => parse_coords text
  | None => None
  end.

(** ** Tokens *)

(** The specification's view of the input: the maximal runs of
    characters that are not white space. *)
Fixpoint tokens_from (cur : text) (s : text) : list text :=
  match s with
  | [] => match cur with [] => [] | _ => [rev cur] end
  | c :: s' =>
      if isspace c then
        match cur with
        | [] => tokens_from [] s'
        | _ => rev cur :: tokens_from [] s'
        end
      else tokens_from (c :: cur) s'
  end.

Definition tokens (s : text) : list text := tokens_from [] s.

(** The tuple one pass makes of a token that stands alone. *)
Definition token_coord (t : text) : coord := fst (parse_one t).

(** A token in which every call of [strtod] starts inside the token: it
    does not end right after its first number, after the comma that follows
    the first number, or after the comma that follows the second. *)
Definition token_complete (t : text) : bool :=
  let p := snd (strtod t) in
  let p := match at_comma p with Some p' => p' | None => p end in
  match p with
  | [] => false
  | _ :: _ =>
      match at_comma (snd (strtod p)) with
      | Some [] => false
      | _ => true
      end
  end.

(** A numeral: text without white space that [strtod] converts whole. *)
Definition numeral (a : text) (v : float) : Prop :=
  a <> [] /\ forallb (fun c => negb (isspace c)) a = true /\
  strtod a = (v, []).

(** The grammar of the specification, [lon,lat] or [lon,lat,alt], with the
    tuple [(lat, lon)] a token stands for. *)
Inductive kml_token : text -> coord -> Prop :=
| kml_lon_lat a b lon lat :
    numeral a lon -> numeral b lat ->
    kml_token (a ++ "," :: b)%char (lat, lon)
| kml_lon_lat_alt a b c lon lat alt :
    numeral a lon -> numeral b lat -> numeral c alt ->
    kml_token (a ++ "," :: b ++ "," :: c)%char (lat, lon).

(** ** The positions inside a pass *)

Definition nonspace (c : ascii) : bool := negb (isspace c).

(** Where a token can end: at the end of the buffer or on white space. *)
Definition boundary (r : text) : Prop :=
  r = [] \/ exists c r', r = c :: r' /\ isspace c = true.

(** The position after the optional comma, and after the optional
    altitude. *)
Definition after_comma (p : text) : text :=
  match at_comma p with Some p' => p' | None => p end.

Definition after_altitude (p : text) : text :=
  match at_comma p with Some p' => snd (strtod p') | None => p end.

(** Two positions that stand at the same place of the same token, in texts
    that go on with the same tokens: the rest [t] of the token is common,
    what follows differs in its white space only. *)
Definition aligned (p p' : text) : Prop :=
  exists t r r',
    p = t ++ r /\ p' = t ++ r' /\ forallb nonspace t = true /\
    boundary r /\ boundary r' /\ tokens r = tokens r'.


End Ckml.

(* ================================================================== *)
(** * [cgeom.c] *)
(* ================================================================== *)

Module Cgeom.

(** The [double] arithmetic the three functions are written in.  The code is
    translated once over this interface; IEEE binary64, with the three
    functions of libm as parameters, is the instance the compiled module
    computes with. *)
Class Arith (F : Type) : Type := {
  lit : Z -> Z -> F;             (* the decimal constant [m * 10^e] *)
  of_ssize : Z -> F;             (* conversion of a [Py_ssize_t] *)
  add : F -> F -> F;
  sub : F -> F -> F;
  mul : F -> F -> F;
  div : F -> F -> F;
  lt : F -> F -> bool;
  fabs : F -> F;
  sqrt : F -> F;
  sin : F -> F;
  cos : F -> F;
  atan2 : F -> F -> F
}.

Declare Scope arith_scope.
Delimit Scope arith_scope with arith.
Infix "+" := add : arith_scope.
Infix "-" := sub : arith_scope.
Infix "*" := mul : arith_scope.
Infix "/" := div : arith_scope.
Infix "<" := lt : arith_scope.
Notation "x > y" := (lt y x) : arith_scope.

(** An item of the sequence argument: a tuple that
    [PyArg_ParseTuple(item, "dd", ...)] accepts, with the two doubles it
    yields, or any other object. *)
Inductive pyobj (F : Type) : Type :=
| PyCoord (c : F * F)
| PyOther.
Arguments PyCoord {F} c.
Arguments PyOther {F}.

Definition parse_dd {F : Type} (item : pyobj F) : option (F * F) :=
  match item with
  | PyCoord c => Some c
  | PyOther => None
  end.

(** [None] is the [NULL] a function returns with an exception set. *)
Definition bind {X Y : Type} (m : option X) (k : X -> option Y) : option Y :=
  match m with
  | Some x => k x
  | None => None
  end.

Notation "x <- m ;; k" := (bind m (fun x => k))
  (at level 61, m at next level, right associativity).
Notation "' p <- m ;; k" := (bind m (fun x => let 'p := x in k))
  (at level 61, p pattern, m at next level, right associativity).

(** [for (i = start; i < start + count; ++i) body]. *)
Fixpoint for_range {S : Type} (count start : nat)
    (body : nat -> S -> option S) (s : S) : option S :=
  match count with
  | O => Some s
  | Datatypes.S count' =>
      s' <- body start s ;; for_range count' (Datatypes.S start) body s'
  end.

(** A loop over the items of a list, stopping at the first failure. *)
Fixpoint fold_items {X S : Type} (f : X -> S -> option S) (l : list X)
    (s : S)
  : option S :=
  match l with
  | [] => Some s
  | x :: l' => bind (f x s) (fold_items f l')
  end.

Section Functions.

Context {F : Type} {A : Arith F}.
#[local] Open Scope arith_scope.

Definition M_PI : F := lit 314159265358979323846 (-20).

Definition PySequence_Fast_GET_ITEM (seq : list (pyobj F)) (i : nat)
  : option (pyobj F) := nth_error seq i.

(** [py_haversine_distance], called with two tuples [(lat, lon)]. *)
Definition py_haversine_distance (p1 p2 : F * F) : F :=
  let '(lat1, lon1) := p1 in
  let '(lat2, lon2) := p2 in
  let r := lit 6371000 0 in
  let phi1 := lat1 * M_PI / lit 180 0 in
  let phi2 := lat2 * M_PI / lit 180 0 in
  let d_phi := (lat2 - lat1) * M_PI / lit 180 0 in
  let d_lambda := (lon2 - lon1) * M_PI / lit 180 0 in
  let a := sin (d_phi / lit 2 0) * sin (d_phi / lit 2 0) +
           cos phi1 * cos phi2 * sin (d_lambda / lit 2 0)
                               * sin (d_lambda / lit 2 0) in
  let c := lit 2 0 * atan2 (sqrt a) (sqrt (lit 1 0 - a)) in
  let dist := r * c in
  dist.

(** [py_polygon_area], called with a sequence of items. *)
Definition py_polygon_area (seq : list (pyobj F)) : option F :=
  let n := length seq in
  if (n <? 3)%nat then Some (lit 0 0)
  else
    '(sum_lat, sum_lon) <-
      for_range n 0 (fun i '(sum_lat, sum_lon) =>
        item <- PySequence_Fast_GET_ITEM seq i ;;
        '(lat, lon) <- parse_dd item ;;
        Some (sum_lat + lat, sum_lon + lon))
      (lit 0 0, lit 0 0) ;;
    let lat0 := sum_lat / of_ssize (Z.of_nat n) in
    let lon0 := sum_lon / of_ssize (Z.of_nat n) in
    let cos_lat0 := cos (lat0 * M_PI / lit 180 0) in
    item <- PySequence_Fast_GET_ITEM seq (n - 1) ;;
    '(latp, lonp) <- parse_dd item ;;
    let prev_x := (lonp - lon0) * cos_lat0 in
    let prev_y := latp - lat0 in
    '(area, _, _) <-
      for_range n 0 (fun i '(area, prev_x, prev_y) =>
        item <- PySequence_Fast_GET_ITEM seq i ;;
        '(lat, lon) <- parse_dd item ;;
        let x := (lon - lon0) * cos_lat0 in
        let y := lat - lat0 in
        Some (area + (prev_x * y - x * prev_y), x, y))
      (lit 0 0, prev_x, prev_y) ;;
    let area := fabs area / lit 2 0 in
    let meter_per_deg := lit 111320 0 in
    let res := area * meter_per_deg * meter_per_deg in
    Some res.

(** [py_point_in_polygon], called with a tuple [(lat, lon)] and a sequence
    of items. *)
Definition py_point_in_polygon (pt : F * F) (seq : list (pyobj F))
  : option bool :=
  let '(lat, lon) := pt in
  let n := length seq in
  if (n <? 3)%nat then Some false
  else
    for_range n 0 (fun i inside =>
      p1 <- PySequence_Fast_GET_ITEM seq i ;;
      p2 <- PySequence_Fast_GET_ITEM seq ((i + 1) mod n)%nat ;;
      '(lat1, lon1) <- parse_dd p1 ;;
      '(lat2, lon2) <- parse_dd p2 ;;
      if xorb (lon1 > lon) (lon2 > lon) then
        let intersect := (lat2 - lat1) * (lon - lon1) /
                         (lon2 - lon1 + lit 1 (-12)) + lat1 in
        if lat < intersect then Some (negb inside) else Some inside
      else Some inside)
    false.

(** ** The formulas of the specification *)

Definition sum (l : list F) : F := fold_left add l (lit 0 0).

Definition mean (l : list F) : F := sum l / of_ssize (Z.of_nat (length l)).

(** The pairs of neighbours along an open chain of points. *)
Fixpoint chain {X : Type} (l : list X) : list (X * X) :=
  match l with
  | a :: (b :: _) as t => (a, b) :: chain t
  | _ => []
  end.

(** The edges [(prev, curr)] of a closed ring, the one from the last point
    back to the first standing first. *)
Definition closed_edges {X : Type} (ring : list X) : list (X * X) :=
  match ring with
  | [] => []
  | a :: _ => (last ring a, a) :: chain ring
  end.

(** The edges [(p1, p2)] of a closed ring in the order of their first
    point, the one from the last point back to the first standing last. *)
Definition ring_edges {X : Type} (ring : list X) : list (X * X) :=
  match ring with
  | [] => []
  | a :: _ => chain (ring ++ [a])
  end.

(** Local planar coordinates [(x, y)] of a vertex [(lat, lon)]. *)
Definition project (lat0 lon0 : F) (v : F * F) : F * F :=
  let '(lat, lon) := v in
  ((lon - lon0) * cos (lat0 * M_PI / lit 180 0), lat - lat0).

Definition cross (e : (F * F) * (F * F)) : F :=
  let '(prev, curr) := e in fst prev * snd curr - fst curr * snd prev.

(** Section 4.3 of the specification, steps 1 to 4.  The scaling by
    [111320.0] squared is two multiplications by [111320.0]. *)
Definition shoelace_area (ring : list (F * F)) : F :=
  let lat0 := mean (map fst ring) in
  let lon0 := mean (map snd ring) in
  let pts := map (project lat0 lon0) ring in
  let signed := sum (map cross (closed_edges pts)) in
  fabs signed / lit 2 0 * lit 111320 0 * lit 111320 0.


(** Section 4.2 of the specification: the haversine term [h] and the
    central angle [c]. *)
Definition haversine_h (p1 p2 : F * F) : F :=
  let '(lat1, lon1) := p1 in
  let '(lat2, lon2) := p2 in
  let radians x := x * M_PI / lit 180 0 in
  let half_sin d := sin (radians d / lit 2 0) in
  half_sin (lat2 - lat1) * half_sin (lat2 - lat1) +
  cos (radians lat1) * cos (radians lat2) * half_sin (lon2 - lon1)
                                          * half_sin (lon2 - lon1).

Definition central_angle (p1 p2 : F * F) : F :=
  let h := haversine_h p1 p2 in
  lit 2 0 * atan2 (sqrt h) (sqrt (lit 1 0 - h)).

(** Section 4.4 of the specification: does the edge toggle the flag? *)
Definition crossing (pt : F * F) (e : (F * F) * (F * F)) : bool :=
  let '(lat, lon) := pt in
  let '((lat1, lon1), (lat2, lon2)) := e in
  if xorb (lon1 > lon) (lon2 > lon) then
    lat < (lat2 - lat1) * (lon - lon1) / (lon2 - lon1 + lit 1 (-12)) + lat1
  else false.

(** The even-odd rule: the parity of the number of toggling edges. *)
Definition even_odd (pt : F * F) (ring : list (F * F)) : bool :=
  Nat.odd (length (filter (crossing pt) (ring_edges ring))).

End Functions.

(** ** IEEE binary64 *)

(** The three functions of [<math.h>] the module calls. *)
Record libm : Type := {
  m_sin : float -> float;
  m_cos : float -> float;
  m_atan2 : float -> float -> float
}.

Definition binary64 (L : libm) : Arith float := {|
  lit m e := Binary64.dec2double (m <? 0) (Z.abs m) e;
  of_ssize n := PrimFloat.of_uint63 (Uint63.of_Z n);
  add := PrimFloat.add;
  sub := PrimFloat.sub;
  mul := PrimFloat.mul;
  div := PrimFloat.div;
  lt := PrimFloat.ltb;
  fabs := PrimFloat.abs;
  sqrt := PrimFloat.sqrt;
  sin := m_sin L;
  cos := m_cos L;
  atan2 := m_atan2 L
|}.

(** What ISO C (Annex F) and IEEE 754 fix about the three functions, and
    what every libm in use satisfies: [sin] is odd, [cos] stays within
    [[-1, 1]], [atan2] of an ordinate whose sign bit is clear is not
    negative and does not exceed 4; invalid arguments give NaN. *)
Record libm_laws (L : libm) : Prop := {
  sin_odd : forall x, m_sin L (- x)%float = (- m_sin L x)%float;
  sin_zero : m_sin L 0%float = 0%float;
  cos_zero : m_cos L 0%float = 1%float;
  cos_unit : forall x,
    PrimFloat.is_finite x = true ->
    (PrimFloat.abs (m_cos L x) <=? 1)%float = true;
  cos_invalid : forall x,
    PrimFloat.is_finite x = false -> m_cos L x = PrimFloat.nan;
  atan2_zero : m_atan2 L 0%float 1%float = 0%float;
  atan2_nan : forall y x,
    PrimFloat.is_nan y || PrimFloat.is_nan x = true ->
    m_atan2 L y x = PrimFloat.nan;
  atan2_range : forall y x,
    Binary64.sign_clear y = true ->
    PrimFloat.is_nan (m_atan2 L y x) = true \/
    (Binary64.sign_clear (m_atan2 L y x) = true /\
     (m_atan2 L y x <=? 4)%float = true)
}.

(** ** The constants and a model of libm *)

(** [M_PI] as the compiler rounds it. *)
Definition pi64 : float := 0x1.921fb54442d18p+1%float.

(** The sine of half an angle given in degrees, as the code computes it. *)
Definition half_sin (L : libm) (d : float) : float :=
  m_sin L (d * pi64 / 180 / 2)%float.

(** A model of the laws: a coarse libm ([sin x] is [x] clipped to
    [[-1, 1]], [cos x] is [1], [atan2] tells quadrants apart).  It shows that
    the laws are consistent and gives the theorems that assume them an
    instance. *)
Definition coarse_libm : libm := {|
  m_sin x := (x * (if PrimFloat.abs x <=? 1 then 1 else 0))%float;
  m_cos x := if PrimFloat.is_finite x then 1%float else PrimFloat.nan;
  m_atan2 y x :=
    if PrimFloat.is_nan y || PrimFloat.is_nan x then PrimFloat.nan
    else if Binary64.sign_clear y
         then (if y =? 0 then 0 else 0x1.921fb54442d18p+0)%float
         else (-0x1.921fb54442d18p+0)%float
|}.

(** The arguments at which the code calls [sin] and [cos] for the points
    [(-12, -180)] and [(12, 0)], with the values glibc returns there (the
    correctly rounded ones). *)
Definition glibc_sample (L : libm) : Prop :=
  m_sin L 0x1.acee9f37bebd5p-3%float = 0x1.a9cd9ac4258f5p-3%float /\
  m_cos L (-0x1.acee9f37bebd5p-3)%float = 0x1.f4cfc327a008p-1%float /\
  m_cos L 0x1.acee9f37bebd5p-3%float = 0x1.f4cfc327a008p-1%float /\
  m_sin L 0x1.921fb54442d18p+0%float = 1%float.

(** A model of the laws that has these values: [coarse_libm] with the four
    values put in ([sin] stays odd, being [x] times an even factor). *)
Definition sample_libm : libm := {|
  m_sin x :=
    (x * (if PrimFloat.abs x =? 0x1.acee9f37bebd5p-3
          then 0x1.fc43db1dc3a34p-1
          else if PrimFloat.abs x =? 0x1.921fb54442d18p+0
          then 0x1.45f306dc9c883p-1
          else if PrimFloat.abs x <=? 1 then 1 else 0))%float;
  m_cos x :=
    if PrimFloat.is_finite x
    then (if PrimFloat.abs x =? 0x1.acee9f37bebd5p-3
          then 0x1.f4cfc327a008p-1 else 1)%float
    else PrimFloat.nan;
  m_atan2 := m_atan2 coarse_libm
|}.

(** ** Sums of doubles *)





(** ** Rings *)

(** The square of the specification's examples, as [(lat, lon)] tuples. *)
Definition unit_square : list (float * float) :=
  [(0, 0); (0, 1); (1, 1); (1, 0)]%float.

(** The same ring started at another vertex. *)
Definition rotate {X : Type} (k : nat) (ring : list X) : list X :=
  skipn k ring ++ firstn k ring.

End Cgeom.


(* ================================================================== *)
(** * Facts about the [strtod] model *)
(* ================================================================== *)

Module LibCFacts.

Import LibC.

(** ** [endptr] points into the text it was given *)

Lemma suffix_refl s : suffix s s.
Proof. now exists []. Qed.

Lemma suffix_trans r s t : suffix r s -> suffix s t -> suffix r t.
Proof.
  intros [p ->] [q ->]. exists (q ++ p). now rewrite app_assoc.
Qed.

Lemma suffix_cons c r s : suffix r s -> suffix r (c :: s).
Proof. intros [p ->]. now exists (c :: p). Qed.

Lemma suffix_length r s : suffix r s -> (length r <= length s)%nat.
Proof. intros [p ->]. rewrite length_app. lia. Qed.

Lemma suffix_same_length r s :
  suffix r s -> length r = length s -> r = s.
Proof.
  intros [p ->] H. rewrite length_app in H.
  destruct p; [reflexivity | simpl in H; lia].
Qed.

Create HintDb sfx.
#[local] Hint Resolve suffix_refl suffix_cons : sfx.

Lemma span_app P s : fst (span P s) ++ snd (span P s) = s.
Proof.
  induction s as [|c s IH]; simpl; [reflexivity|].
  destruct (P c); [|reflexivity].
  destruct (span P s); simpl in *. now rewrite IH.
Qed.

Lemma span_suffix P s : suffix (snd (span P s)) s.
Proof. exists (fst (span P s)). symmetry. apply span_app. Qed.

Lemma opt_sign_suffix s : suffix (snd (opt_sign s)) s.
Proof.
  destruct s as [|c r]; simpl; auto with sfx.
  destruct (Ascii.eqb c "-"); simpl; auto with sfx.
  destruct (Ascii.eqb c "+"); simpl; auto with sfx.
Qed.

Lemma mantissa_suffix isd s ip fp r :
  mantissa isd s = Some (ip, fp, r) -> suffix r s.
Proof.
  unfold mantissa. pose proof (span_suffix isd s) as H1.
  destruct (span isd s) as [ip' r1]; simpl in H1.
  destruct r1 as [|c r1'].
  - destruct ip'; intros [=]; subst; assumption.
  - destruct (Ascii.eqb c ".").
    + pose proof (span_suffix isd r1') as H2.
      destruct (span isd r1') as [fp' r2]; simpl in H2.
      assert (suffix r2 s)
        by (eapply suffix_trans; [apply suffix_cons, H2 | exact H1]).
      destruct ip', fp'; intros [=]; subst; assumption.
    + destruct ip'; intros [=]; subst; assumption.
Qed.

Lemma exponent_suffix mark s : suffix (snd (exponent mark s)) s.
Proof.
  destruct s as [|c r]; simpl; auto with sfx.
  destruct (Ascii.eqb (tolower c) mark); simpl; auto with sfx.
  pose proof (opt_sign_suffix r) as H1.
  destruct (opt_sign r) as [neg r1]; simpl in H1.
  pose proof (span_suffix isdigit r1) as H2.
  destruct (span isdigit r1) as [ds r2]; simpl in H2.
  destruct ds; simpl; auto with sfx.
  apply suffix_cons. eapply suffix_trans; eassumption.
Qed.

Lemma decimal_suffix neg s v r : decimal neg s = Some (v, r) -> suffix r s.
Proof.
  unfold decimal. destruct (mantissa isdigit s) as [[[ip fp] r1]|] eqn:M;
    [|discriminate].
  pose proof (exponent_suffix "e" r1) as H.
  destruct (exponent "e" r1) as [e r']; simpl in H.
  intros [= _ <-]. eapply suffix_trans; [exact H|].
  eapply mantissa_suffix; eassumption.
Qed.

Lemma hexadecimal_suffix neg s v r :
  hexadecimal neg s = Some (v, r) -> suffix r s.
Proof.
  unfold hexadecimal. destruct s as [|z [|x s']]; try discriminate.
  destruct (Ascii.eqb z "0" && Ascii.eqb (tolower x) "x"); [|discriminate].
  destruct (mantissa isxdigit s') as [[[ip fp] r1]|] eqn:M; [|discriminate].
  pose proof (exponent_suffix "p" r1) as H.
  destruct (exponent "p" r1) as [e r']; simpl in H.
  intros [= _ <-]. do 2 apply suffix_cons.
  eapply suffix_trans; [exact H|]. eapply mantissa_suffix; eassumption.
Qed.

Lemma match_ci_suffix w s r : match_ci w s = Some r -> suffix r s.
Proof.
  revert s; induction w as [|a w IH]; intros s; simpl.
  - intros [= <-]. apply suffix_refl.
  - destruct s as [|c s']; [discriminate|].
    destruct (Ascii.eqb (tolower c) a); [|discriminate].
    intros H. apply suffix_cons, IH, H.
Qed.

Lemma nan_payload_suffix s : suffix (nan_payload s) s.
Proof.
  destruct s as [|c r]; simpl; auto with sfx.
  destruct (Ascii.eqb c "("); auto with sfx.
  pose proof (span_suffix is_nchar r) as H.
  destruct (snd (span is_nchar r)) as [|d r']; auto with sfx.
  destruct (Ascii.eqb d ")"); auto with sfx.
  apply suffix_cons. eapply suffix_trans; [|exact H]. auto with sfx.
Qed.

Lemma special_suffix neg s v r : special neg s = Some (v, r) -> suffix r s.
Proof.
  unfold special.
  destruct (match_ci (list_ascii_of_string "inf") s) as [r1|] eqn:I.
  - apply match_ci_suffix in I.
    destruct (match_ci (list_ascii_of_string "inity") r1) as [r2|] eqn:J;
      intros [= _ <-]; [|assumption].
    apply match_ci_suffix in J. eapply suffix_trans; eassumption.
  - destruct (match_ci (list_ascii_of_string "nan") s) as [r1|] eqn:N;
      [|discriminate].
    intros [= _ <-]. apply match_ci_suffix in N.
    eapply suffix_trans; [apply nan_payload_suffix | exact N].
Qed.

Lemma subject_suffix s v r : subject s = Some (v, r) -> suffix r s.
Proof.
  unfold subject. pose proof (opt_sign_suffix s) as H.
  destruct (opt_sign s) as [neg s']; simpl in H.
  destruct (special neg s') as [res|] eqn:S.
  { intros [= ->]. eapply suffix_trans; [|exact H].
    eapply special_suffix; eassumption. }
  destruct (hexadecimal neg s') as [res|] eqn:X.
  { intros [= ->]. eapply suffix_trans; [|exact H].
    eapply hexadecimal_suffix; eassumption. }
  intros D. eapply suffix_trans; [|exact H].
  eapply decimal_suffix; eassumption.
Qed.

Lemma strtod_suffix s : suffix (snd (strtod s)) s.
Proof.
  unfold strtod.
  destruct (subject (snd (span isspace s))) as [[v r]|] eqn:S; simpl.
  - eapply suffix_trans; [|apply span_suffix].
    eapply subject_suffix; eassumption.
  - apply suffix_refl.
Qed.

(** ** Characters that end every subject sequence

    A comma or white space is never part of a number, so what [strtod]
    converts does not depend on the text behind one. *)

Lemma terminator_cases c :
  terminator c = true ->
  In c [","; " "; "009"; "010"; "011"; "012"; "013"]%char.
Proof.
  destruct c as [[] [] [] [] [] [] [] []]; intros H;
    solve [discriminate H | simpl; tauto].
Qed.

Ltac by_terminator H :=
  apply terminator_cases in H; simpl in H;
  repeat (destruct H as [H|H]; [subst; reflexivity|]); contradiction.

Lemma terminator_not_digit c : terminator c = true -> isdigit c = false.
Proof. intros H. by_terminator H. Qed.

Lemma terminator_not_xdigit c : terminator c = true -> isxdigit c = false.
Proof. intros H. by_terminator H. Qed.

Lemma terminator_not_nchar c : terminator c = true -> is_nchar c = false.
Proof. intros H. by_terminator H. Qed.

Lemma terminator_tolower c : terminator c = true -> tolower c = c.
Proof. intros H. by_terminator H. Qed.

Lemma terminator_not_alpha c a :
  terminator c = true -> isalpha a = true -> Ascii.eqb c a = false.
Proof.
  intros H A. apply terminator_cases in H; simpl in H.
  destruct a as [[] [] [] [] [] [] [] []]; try discriminate A;
    repeat (destruct H as [H|H]; [subst; reflexivity|]); contradiction.
Qed.

Lemma terminator_not_punct c :
  terminator c = true ->
  Ascii.eqb c "-" = false /\ Ascii.eqb c "+" = false /\
  Ascii.eqb c "." = false /\ Ascii.eqb c "(" = false /\
  Ascii.eqb c ")" = false /\ Ascii.eqb c "0" = false.
Proof.
  intros H. apply terminator_cases in H; simpl in H.
  repeat (destruct H as [H|H]; [subst; repeat split|]); contradiction.
Qed.

Lemma span_stop P c s t :
  P c = false -> span P (s ++ c :: t) = extend (c :: t) (span P s).
Proof.
  intros H. induction s as [|a s IH]; simpl.
  - now rewrite H.
  - destruct (P a); [|reflexivity].
    rewrite IH. now destruct (span P s).
Qed.

Lemma span_stuck P s t :
  snd (span P s) <> [] -> span P (s ++ t) = extend t (span P s).
Proof.
  induction s as [|a s IH]; simpl; [congruence|].
  destruct (P a); [|reflexivity].
  intros H. destruct (span P s) as [x y] eqn:E; simpl in *.
  rewrite IH by assumption. reflexivity.
Qed.

Lemma opt_sign_stop c s t :
  terminator c = true -> opt_sign (s ++ c :: t) = extend (c :: t) (opt_sign s).
Proof.
  intros H. destruct (terminator_not_punct c H) as (Hm & Hp & _).
  destruct s as [|a s]; simpl.
  - now rewrite Hm, Hp.
  - destruct (Ascii.eqb a "-"); [reflexivity|].
    now destruct (Ascii.eqb a "+").
Qed.

Lemma mantissa_stop isd c s t :
  terminator c = true -> isd c = false ->
  mantissa isd (s ++ c :: t) =
  match mantissa isd s with
  | Some (ip, fp, r) => Some (ip, fp, r ++ c :: t)
  | None => None
  end.
Proof.
  intros H Hd. destruct (terminator_not_punct c H) as (_ & _ & Hdot & _).
  unfold mantissa. rewrite span_stop by assumption.
  destruct (span isd s) as [ip r1]; unfold extend; simpl.
  destruct r1 as [|d r1]; simpl.
  - rewrite Hdot. now destruct ip.
  - destruct (Ascii.eqb d ".").
    + rewrite span_stop by assumption.
      destruct (span isd r1) as [fp r2]; unfold extend; simpl.
      now destruct ip, fp.
    + now destruct ip.
Qed.

Lemma exponent_stop mark c s t :
  terminator c = true -> isalpha mark = true ->
  exponent mark (s ++ c :: t) = extend (c :: t) (exponent mark s).
Proof.
  intros H Hm. destruct s as [|a s]; simpl.
  - rewrite (terminator_tolower c H), (terminator_not_alpha c mark H Hm).
    reflexivity.
  - destruct (Ascii.eqb (tolower a) mark); [|reflexivity].
    rewrite opt_sign_stop by assumption.
    destruct (opt_sign s) as [neg r1]; unfold extend at 1; simpl.
    rewrite span_stop by now apply terminator_not_digit.
    destruct (span isdigit r1) as [ds r2]; unfold extend; simpl.
    now destruct ds.
Qed.

Lemma decimal_stop neg c s t :
  terminator c = true ->
  decimal neg (s ++ c :: t) = option_map (extend (c :: t)) (decimal neg s).
Proof.
  intros H. unfold decimal.
  rewrite mantissa_stop by (auto using terminator_not_digit).
  destruct (mantissa isdigit s) as [[[ip fp] r]|]; [|reflexivity].
  rewrite exponent_stop by (auto; reflexivity).
  now destruct (exponent "e" r).
Qed.

Lemma hexadecimal_stop neg c s t :
  terminator c = true ->
  hexadecimal neg (s ++ c :: t) =
  option_map (extend (c :: t)) (hexadecimal neg s).
Proof.
  intros H. destruct (terminator_not_punct c H) as (_ & _ & _ & _ & _ & H0).
  unfold hexadecimal. destruct s as [|z [|x s]]; simpl.
  - destruct t; [reflexivity | now rewrite H0].
  - rewrite (terminator_tolower c H), (terminator_not_alpha c "x" H eq_refl).
    now rewrite andb_false_r.
  - destruct (Ascii.eqb z "0" && Ascii.eqb (tolower x) "x"); [|reflexivity].
    rewrite mantissa_stop by (auto using terminator_not_xdigit).
    destruct (mantissa isxdigit s) as [[[ip fp] r]|]; [|reflexivity].
    rewrite exponent_stop by (auto; reflexivity).
    now destruct (exponent "p" r).
Qed.

Lemma match_ci_stop w c s t :
  terminator c = true -> forallb isalpha w = true ->
  match_ci w (s ++ c :: t) = option_map (fun r => r ++ c :: t) (match_ci w s).
Proof.
  intros H. revert s. induction w as [|a w IH]; intros s Hw; simpl.
  - reflexivity.
  - simpl in Hw. apply andb_true_iff in Hw as [Ha Hw].
    destruct s as [|b s]; simpl.
    + now rewrite (terminator_tolower c H), (terminator_not_alpha c a H Ha).
    + destruct (Ascii.eqb (tolower b) a); [now apply IH | reflexivity].
Qed.

Lemma nan_payload_stop c s t :
  terminator c = true -> nan_payload (s ++ c :: t) = nan_payload s ++ c :: t.
Proof.
  intros H. destruct (terminator_not_punct c H) as (_ & _ & _ & Ho & Hc & _).
  destruct s as [|a s]; simpl.
  - now rewrite Ho.
  - destruct (Ascii.eqb a "("); [|reflexivity].
    rewrite span_stop by now apply terminator_not_nchar.
    unfold extend; simpl.
    destruct (snd (span is_nchar s)) as [|d r]; simpl.
    + now rewrite Hc.
    + now destruct (Ascii.eqb d ")").
Qed.

Lemma special_stop neg c s t :
  terminator c = true ->
  special neg (s ++ c :: t) = option_map (extend (c :: t)) (special neg s).
Proof.
  intros H. unfold special.
  rewrite match_ci_stop by (auto; reflexivity).
  destruct (match_ci (list_ascii_of_string "inf") s) as [r|];
    cbn [option_map].
  - rewrite match_ci_stop by (auto; reflexivity).
    now destruct (match_ci (list_ascii_of_string "inity") r).
  - rewrite match_ci_stop by (auto; reflexivity).
    destruct (match_ci (list_ascii_of_string "nan") s) as [r|];
      cbn [option_map]; [|reflexivity].
    now rewrite nan_payload_stop.
Qed.

Lemma subject_stop c s t :
  terminator c = true ->
  subject (s ++ c :: t) = option_map (extend (c :: t)) (subject s).
Proof.
  intros H. unfold subject. rewrite opt_sign_stop by assumption.
  destruct (opt_sign s) as [neg s']; unfold extend at 1; simpl.
  rewrite special_stop by assumption.
  destruct (special neg s'); [reflexivity|]; simpl.
  rewrite hexadecimal_stop by assumption.
  destruct (hexadecimal neg s'); [reflexivity|]; simpl.
  now apply decimal_stop.
Qed.

(** A comma ends the conversion wherever it stands. *)
Lemma strtod_comma s t :
  strtod (s ++ "," :: t)%char = extend ("," :: t)%char (strtod s).
Proof.
  unfold strtod. rewrite span_stop by reflexivity. unfold extend at 1; simpl.
  rewrite subject_stop by reflexivity.
  now destruct (subject (snd (span isspace s))).
Qed.

(** White space ends the conversion when something other than white space
    stands before it: leading white space is skipped. *)
Lemma strtod_space c s t :
  isspace c = true -> snd (span isspace s) <> [] ->
  strtod (s ++ c :: t) = extend (c :: t) (strtod s).
Proof.
  intros H Hs. unfold strtod. rewrite span_stuck by assumption.
  unfold extend at 1; simpl.
  rewrite subject_stop by (unfold terminator; now rewrite H, orb_true_r).
  now destruct (subject (snd (span isspace s))).
Qed.

Lemma strtod_end s t :
  snd (span isspace s) <> [] -> (t = [] \/ exists c t', t = c :: t' /\ isspace c = true) ->
  strtod (s ++ t) = extend t (strtod s).
Proof.
  intros Hs [->|(c & t' & -> & Hc)].
  - rewrite app_nil_r. unfold extend. destruct (strtod s); simpl.
    now rewrite app_nil_r.
  - now apply strtod_space.
Qed.

(** ** The model at work *)

(** Decimal conversion agrees with the rounding of Rocq's own parser of
    float literals, also on a tie, at the overflow threshold and among the
    subnormals. *)
Lemma dec2double_examples :
  Binary64.dec2double false 377 (-1) = 37.7%float /\
  Binary64.dec2double true 1221 (-1) = (-122.1)%float /\
  Binary64.dec2double false 1 (-12) = 1e-12%float /\
  Binary64.dec2double false 314159265358979323846 (-20)
  = 0x1.921fb54442d18p+1%float /\
  Binary64.dec2double false 9007199254740993 0 = 9007199254740992%float /\
  Binary64.dec2double false 17976931348623159 292 = infinity /\
  Binary64.dec2double false 22250738585072011 (-324)
  = 0x0.fffffffffffffp-1022%float /\
  Binary64.dec2double false 2 (-324) = 0%float.
Proof. repeat split; reflexivity. Qed.

(** Leading white space is skipped, the conversion stops at the first
    character that cannot go on, and without a conversion [endptr] is
    [nptr]. *)
Lemma strtod_examples :
  strtod (str "  -122.1,37.7") = ((-122.1)%float, str ",37.7") /\
  strtod (str " 2") = (2%float, []) /\
  strtod (str "1e+x") = (1%float, str "e+x") /\
  strtod (str "0x1.8p1,") = (3%float, str ",") /\
  strtod (str "0xg") = (0%float, str "xg") /\
  strtod (str "-Infinity ") = (neg_infinity, str " ") /\
  strtod (str "nan(0x7f)z") = (nan, str "z") /\
  strtod (str "  x") = (0%float, str "  x") /\
  strtod (str ".") = (0%float, str ".").
Proof. repeat split; reflexivity. Qed.

End LibCFacts.


(* ================================================================== *)
(** * [parse_coords]: termination and the token view *)
(* ================================================================== *)

Module CkmlFacts.

Import LibC LibCFacts Ckml.

Lemma at_comma_suffix p p' : at_comma p = Some p' -> suffix p' p.
Proof.
  destruct p as [|c p]; simpl; [discriminate|].
  destruct (Ascii.eqb c ","); [|discriminate].
  intros [= ->]. apply suffix_cons, suffix_refl.
Qed.

Lemma at_comma_length p p' :
  at_comma p = Some p' -> (length p' < length p)%nat.
Proof.
  destruct p as [|c p]; simpl; [discriminate|].
  destruct (Ascii.eqb c ","); [|discriminate].
  intros [= ->]. lia.
Qed.

Lemma skip_while_suffix P p : suffix (skip_while P p) p.
Proof. apply span_suffix. Qed.

(** ** Every pass of the loop moves forward *)

Lemma parse_one_progress c p :
  isspace c = false ->
  (length (snd (parse_one (c :: p))) < length (c :: p))%nat.
Proof.
  intros Hc. unfold parse_one.
  pose proof (strtod_suffix (c :: p)) as S1.
  destruct (strtod (c :: p)) as [lon q1]; cbn [snd] in S1.
  assert (L1 := suffix_length _ _ S1).
  destruct (at_comma q1) as [p2|] eqn:C1.
  { apply at_comma_length in C1.
    pose proof (strtod_suffix p2) as S2.
    destruct (strtod p2) as [lat q2]; cbn [snd] in *.
    assert (L2 := suffix_length _ _ S2).
    set (p3 := match at_comma q2 with
               | Some p' => snd (strtod p')
               | None => q2
               end).
    assert (L3 : (length p3 <= length q2)%nat).
    { subst p3. destruct (at_comma q2) as [p'|] eqn:C2; [|lia].
      apply at_comma_length in C2.
      pose proof (suffix_length _ _ (strtod_suffix p')). lia. }
    pose proof (suffix_length _ _ (skip_while_suffix
      (fun c0 => negb (isspace c0)) p3)).
    simpl in *. lia. }
  pose proof (strtod_suffix q1) as S2.
  destruct (strtod q1) as [lat q2]; cbn [snd] in *.
  assert (L2 := suffix_length _ _ S2).
  destruct (at_comma q2) as [p'|] eqn:C2.
  { apply at_comma_length in C2.
    pose proof (suffix_length _ _ (strtod_suffix p')).
    pose proof (suffix_length _ _ (skip_while_suffix nonspace
      (snd (strtod p')))).
    unfold nonspace in *. lia. }
  destruct q2 as [|d q2']; [simpl; lia|].
  unfold skip_while; simpl.
  destruct (isspace d) eqn:Hd; simpl.
  - assert (length (d :: q2') <> length (c :: p)).
    { intros E.
      assert (d :: q2' = c :: p) as [= -> _]
        by (apply suffix_same_length;
            [eapply suffix_trans; eassumption | exact E]).
      congruence. }
    simpl in *. lia.
  - pose proof (suffix_length _ _ (span_suffix
      (fun c0 => negb (isspace c0)) q2')).
    destruct (span (fun c0 => negb (isspace c0)) q2'); simpl in *. lia.
Qed.

Lemma parse_loop_total fuel p acc :
  (length p < fuel)%nat -> exists l, parse_loop fuel p acc = Some (acc ++ l).
Proof.
  revert p acc. induction fuel as [|fuel IH]; intros p acc Hf; [lia|].
  simpl. destruct p as [|c0 p0]; [exists []; now rewrite app_nil_r|].
  pose proof (skip_while_suffix isspace (c0 :: p0)) as Sw.
  pose proof (span_app isspace (c0 :: p0)) as Sa.
  unfold skip_while in *.
  destruct (span isspace (c0 :: p0)) as [ws [|c p]] eqn:E;
    [exists []; now rewrite app_nil_r|].
  cbn [fst snd] in *.
  assert (Hc : isspace c = false).
  { clear - E. revert ws E. generalize (c0 :: p0) as s.
    induction s as [|a s IHs]; simpl; intros ws; [discriminate|].
    destruct (isspace a) eqn:Ha.
    - destruct (span isspace s) as [x y]. intros [= <- ->].
      now apply (IHs x).
    - intros [= <- -> ->]. exact Ha. }
  pose proof (parse_one_progress c p Hc) as Hp.
  destruct (parse_one (c :: p)) as [tup p']; cbn [snd] in Hp.
  apply suffix_length in Sw.
  destruct (IH p' (acc ++ [tup])) as [l Hl]; [simpl in *; lia|].
  exists (tup :: l). rewrite Hl. now rewrite <- app_assoc.
Qed.

(** ** The loop, token by token *)

Lemma span_fst_all P s : forallb P (fst (span P s)) = true.
Proof.
  induction s as [|a s IH]; simpl; [reflexivity|].
  destruct (P a) eqn:E; [|reflexivity].
  destruct (span P s); simpl in *. now rewrite E.
Qed.

Lemma span_all P s t :
  forallb P s = true ->
  match t with [] => True | d :: _ => P d = false end ->
  span P (s ++ t) = (s, t).
Proof.
  intros Hs Ht. induction s as [|a s IH]; simpl.
  - destruct t as [|d t]; simpl; [reflexivity | now rewrite Ht].
  - simpl in Hs. apply andb_true_iff in Hs as [-> Hs]. now rewrite IH.
Qed.

Lemma span_snd_head P s :
  match snd (span P s) with [] => True | d :: _ => P d = false end.
Proof.
  induction s as [|a s IH]; simpl; [exact I|].
  destruct (P a) eqn:E; simpl; [|exact E].
  now destruct (span P s).
Qed.

Lemma boundary_head r :
  boundary r <-> match r with [] => True | d :: _ => nonspace d = false end.
Proof.
  unfold boundary, nonspace. split.
  - intros [->|(c & r' & -> & H)]; [exact I | now rewrite H].
  - destruct r as [|d r']; [now left|]. intros H. right.
    exists d, r'. split; [reflexivity|]. now destruct (isspace d).
Qed.

Lemma nonspace_suffix x t :
  suffix x t -> forallb nonspace t = true -> forallb nonspace x = true.
Proof.
  intros [p ->]. rewrite forallb_app. now intros [_ H]%andb_true_iff.
Qed.

Lemma nonspace_not_skipped x :
  x <> [] -> forallb nonspace x = true -> snd (span isspace x) <> [].
Proof.
  destruct x as [|a x]; [congruence|]. simpl. unfold nonspace at 1.
  intros _ [Ha _]%andb_true_iff.
  destruct (isspace a); [discriminate | simpl; congruence].
Qed.

Lemma strtod_in_token x r :
  x <> [] -> forallb nonspace x = true -> boundary r ->
  strtod (x ++ r) = (fst (strtod x), snd (strtod x) ++ r) /\
  forallb nonspace (snd (strtod x)) = true.
Proof.
  intros Hx Hn Hr. split.
  - now apply strtod_end; [apply nonspace_not_skipped|].
  - eapply nonspace_suffix; [apply strtod_suffix | exact Hn].
Qed.

Lemma at_comma_in_token x r :
  boundary r -> at_comma (x ++ r) = option_map (fun y => y ++ r) (at_comma x).
Proof.
  intros Hr. destruct x as [|a x]; simpl.
  - destruct Hr as [->|(c & r' & -> & H)]; [reflexivity|]. simpl.
    destruct (Ascii.eqb_spec c ","); [subst; discriminate | reflexivity].
  - now destruct (Ascii.eqb a ",").
Qed.

Lemma skip_token_rest x r :
  forallb nonspace x = true -> boundary r ->
  skip_while (fun c => negb (isspace c)) (x ++ r) = r.
Proof.
  intros Hx Hr. unfold skip_while. fold nonspace.
  rewrite span_all; [reflexivity | assumption | now apply boundary_head].
Qed.

Lemma parse_one_eq p :
  parse_one p =
  ((fst (strtod (after_comma (snd (strtod p)))), fst (strtod p)),
   skip_while (fun c => negb (isspace c))
     (after_altitude (snd (strtod (after_comma (snd (strtod p))))))).
Proof.
  unfold parse_one, after_comma, after_altitude.
  destruct (strtod p) as [lon q1]; cbn [fst snd].
  now destruct (strtod match at_comma q1 with Some p' => p' | None => q1 end).
Qed.

Lemma token_complete_eq t :
  token_complete t = true <->
  after_comma (snd (strtod t)) <> [] /\
  at_comma (snd (strtod (after_comma (snd (strtod t))))) <> Some [].
Proof.
  unfold token_complete. fold (after_comma (snd (strtod t))).
  destruct (after_comma (snd (strtod t))) as [|a p].
  - split; [discriminate | intros [H _]; now elim H].
  - destruct (at_comma (snd (strtod (a :: p)))) as [[|b q]|]; split;
      try discriminate; try reflexivity;
      try (intros [_ H]; now elim H);
      intros _; split; discriminate.
Qed.

(** On a complete token the pass reads the token alone and stops where the
    token ends. *)
Lemma parse_one_token t r :
  t <> [] -> forallb nonspace t = true -> boundary r ->
  token_complete t = true ->
  parse_one (t ++ r) = (fst (parse_one t), r).
Proof.
  intros Ht Hn Hr [Hc1 Hc2]%token_complete_eq.
  rewrite !parse_one_eq. cbn [fst].
  destruct (strtod_in_token t r Ht Hn Hr) as [-> Hq1]. cbn [fst snd].
  set (q1 := snd (strtod t)) in *.
  assert (E2 : after_comma (q1 ++ r) = after_comma q1 ++ r).
  { unfold after_comma. rewrite at_comma_in_token by assumption.
    now destruct (at_comma q1). }
  assert (Hp2 : forallb nonspace (after_comma q1) = true).
  { unfold after_comma. destruct (at_comma q1) as [p'|] eqn:C; [|assumption].
    eapply nonspace_suffix; [eapply at_comma_suffix, C | assumption]. }
  rewrite E2. set (p2 := after_comma q1) in *.
  destruct (strtod_in_token p2 r Hc1 Hp2 Hr) as [-> Hq2]. cbn [fst snd].
  set (q2 := snd (strtod p2)) in *.
  f_equal. unfold after_altitude.
  rewrite at_comma_in_token by assumption.
  destruct (at_comma q2) as [p4|] eqn:C; cbn [option_map].
  - assert (Hp4 : p4 <> []) by (intros ->; now apply Hc2).
    assert (Hn4 : forallb nonspace p4 = true)
      by (eapply nonspace_suffix; [eapply at_comma_suffix, C | assumption]).
    destruct (strtod_in_token p4 r Hp4 Hn4 Hr) as [-> Hq3]. cbn [snd].
    now apply skip_token_rest.
  - now apply skip_token_rest.
Qed.

Lemma tokens_from_token t cur r :
  forallb nonspace t = true ->
  tokens_from cur (t ++ r) = tokens_from (rev t ++ cur) r.
Proof.
  revert cur. induction t as [|a t IH]; intros cur H; simpl; [reflexivity|].
  simpl in H. apply andb_true_iff in H as [Ha Ht]. unfold nonspace in Ha.
  destruct (isspace a); [discriminate|].
  rewrite IH by assumption. now rewrite <- app_assoc.
Qed.

Lemma tokens_from_boundary cur r :
  cur <> [] -> boundary r -> tokens_from cur r = rev cur :: tokens r.
Proof.
  intros Hc [->|(c & r' & -> & H)]; unfold tokens; simpl.
  - now destruct cur.
  - rewrite H. now destruct cur.
Qed.

Lemma tokens_token t r :
  t <> [] -> forallb nonspace t = true -> boundary r ->
  tokens (t ++ r) = t :: tokens r.
Proof.
  intros Ht Hn Hr. unfold tokens at 1.
  rewrite tokens_from_token by assumption. rewrite app_nil_r.
  rewrite tokens_from_boundary; [now rewrite rev_involutive | | assumption].
  intros E. apply Ht. rewrite <- (rev_involutive t), E. reflexivity.
Qed.

Lemma tokens_skip p : tokens (skip_while isspace p) = tokens p.
Proof.
  unfold skip_while, tokens. induction p as [|a p IH]; simpl; [reflexivity|].
  destruct (isspace a) eqn:E.
  - destruct (span isspace p); simpl in *. exact IH.
  - simpl. now rewrite E.
Qed.

Lemma forallb_rev_true {X : Type} (P : X -> bool) (l : list X) :
  forallb P l = true -> forallb P (rev l) = true.
Proof.
  rewrite !forallb_forall. intros H x Hx. apply H. now apply in_rev.
Qed.

(** [tokens] are what the name says: not empty and free of white space. *)
Lemma tokens_from_nonspace cur s :
  forallb nonspace cur = true ->
  Forall (fun t => t <> [] /\ forallb nonspace t = true) (tokens_from cur s).
Proof.
  revert cur. induction s as [|c s IH]; intros cur Hcur; simpl.
  - destruct cur as [|a cur]; constructor; [|constructor].
    split; [|now apply forallb_rev_true].
    intros E. apply (f_equal (@length _)) in E.
    rewrite length_rev in E. discriminate E.
  - destruct (isspace c) eqn:Hc.
    + destruct cur as [|a cur]; [now apply IH|].
      constructor; [|now apply IH].
      split; [|now apply forallb_rev_true].
      intros E. apply (f_equal (@length _)) in E.
      rewrite length_rev in E. discriminate E.
    + apply IH. simpl. unfold nonspace at 1. now rewrite Hc.
Qed.

Lemma tokens_nonspace s :
  Forall (fun t => t <> [] /\ forallb nonspace t = true) (tokens s).
Proof. now apply tokens_from_nonspace. Qed.

(** A position that is not on white space starts a token. *)
Lemma token_split c p :
  isspace c = false ->
  exists t r, c :: p = t ++ r /\ t <> [] /\
              forallb nonspace t = true /\ boundary r.
Proof.
  intros Hc. exists (fst (span nonspace (c :: p))), (snd (span nonspace (c :: p))).
  repeat split.
  - symmetry. apply span_app.
  - simpl. unfold nonspace at 1. rewrite Hc. simpl.
    destruct (span nonspace p); simpl. congruence.
  - apply span_fst_all.
  - apply boundary_head, span_snd_head.
Qed.

Lemma skip_space_head p c q :
  skip_while isspace p = c :: q -> isspace c = false.
Proof.
  unfold skip_while. intros E.
  pose proof (span_snd_head isspace p) as H. now rewrite E in H.
Qed.

Lemma parse_loop_tokens fuel p acc :
  (length p < fuel)%nat ->
  forallb token_complete (tokens p) = true ->
  parse_loop fuel p acc =
  Some (acc ++ map token_coord (tokens p)).
Proof.
  revert p acc. induction fuel as [|fuel IH]; intros p acc Hf Hall; [lia|].
  simpl. destruct p as [|c0 p0]; [now rewrite app_nil_r|].
  rewrite <- (tokens_skip (c0 :: p0)) in *.
  pose proof (suffix_length _ _ (skip_while_suffix isspace (c0 :: p0))) as Sw.
  destruct (skip_while isspace (c0 :: p0)) as [|c p] eqn:E;
    [now rewrite app_nil_r|].
  apply skip_space_head in E.
  destruct (token_split c p E) as (t & r & Heq & Ht & Hn & Hr).
  rewrite Heq in *. rewrite tokens_token in Hall |- * by assumption.
  simpl in Hall. apply andb_true_iff in Hall as [Hc Hall].
  rewrite parse_one_token by assumption.
  rewrite IH; [simpl; now rewrite <- app_assoc | | assumption].
  rewrite length_app in Sw. destruct t; [congruence|]. simpl in *. lia.
Qed.

(** The same for the tokens up to an incomplete one: the tuples of the
    complete tokens come first in the output. *)
Lemma parse_loop_prefix fuel p acc ts rest :
  (length p < fuel)%nat ->
  tokens p = ts ++ rest ->
  forallb token_complete ts = true ->
  exists l,
    parse_loop fuel p acc = Some (acc ++ map token_coord ts ++ l).
Proof.
  revert p acc ts. induction fuel as [|fuel IH]; intros p acc ts Hf Ht Hall;
    [lia|].
  destruct ts as [|t ts].
  { destruct (parse_loop_total (S fuel) p acc Hf) as [l Hl]. now exists l. }
  simpl parse_loop. destruct p as [|c0 p0]; [discriminate Ht|].
  rewrite <- (tokens_skip (c0 :: p0)) in Ht.
  pose proof (suffix_length _ _ (skip_while_suffix isspace (c0 :: p0))) as Sw.
  destruct (skip_while isspace (c0 :: p0)) as [|c p] eqn:E;
    [discriminate Ht|].
  apply skip_space_head in E.
  destruct (token_split c p E) as (t' & r & Heq & Ht' & Hn & Hr).
  rewrite Heq in *. rewrite tokens_token in Ht by assumption.
  injection Ht as -> Ht.
  simpl in Hall. apply andb_true_iff in Hall as [Hc Hall].
  rewrite parse_one_token by assumption.
  destruct (IH r (acc ++ [fst (parse_one t)]) ts) as [l Hl];
    [|assumption|assumption|].
  - rewrite length_app in Sw. destruct t; [congruence|]. simpl in *. lia.
  - exists l. rewrite Hl. simpl. now rewrite <- app_assoc.
Qed.

(** ** Never more tuples than tokens *)

Lemma tokens_from_app_boundary cur pre p :
  boundary p ->
  tokens_from cur (pre ++ p) = tokens_from cur pre ++ tokens p.
Proof.
  intros Hp. revert cur. induction pre as [|c pre IH]; intros cur.
  - simpl app. destruct cur as [|a cur]; [reflexivity|].
    now rewrite tokens_from_boundary by (assumption || discriminate).
  - simpl. destruct (isspace c).
    + destruct cur; simpl; now rewrite IH.
    + apply IH.
Qed.

Lemma tokens_suffix_boundary p r :
  suffix p r -> boundary p -> (length (tokens p) <= length (tokens r))%nat.
Proof.
  intros [pre ->] Hp. unfold tokens at 2.
  rewrite tokens_from_app_boundary, length_app by assumption. lia.
Qed.

Lemma suffix_past_token p t r :
  suffix p (t ++ r) -> boundary p -> forallb nonspace t = true -> suffix p r.
Proof.
  intros Hs Hp. induction t as [|a t IH]; intros Ht; [exact Hs|].
  simpl in Ht. apply andb_true_iff in Ht as [Ha Ht].
  destruct Hs as [pre E]. destruct pre as [|x pre].
  - simpl in E. subst p. apply boundary_head in Hp. congruence.
  - injection E as _ E. apply IH; [now exists pre | assumption].
Qed.

Lemma parse_one_suffix p : suffix (snd (parse_one p)) p.
Proof.
  rewrite parse_one_eq. cbn [snd].
  eapply suffix_trans; [apply skip_while_suffix|].
  assert (H1 : suffix (after_comma (snd (strtod p))) p).
  { eapply suffix_trans; [|apply strtod_suffix].
    unfold after_comma. destruct (at_comma _) eqn:C;
      [eapply at_comma_suffix, C | apply suffix_refl]. }
  eapply suffix_trans; [|exact H1].
  unfold after_altitude. destruct (at_comma _) as [p'|] eqn:C.
  - eapply suffix_trans; [apply strtod_suffix|].
    eapply suffix_trans; [eapply at_comma_suffix, C | apply strtod_suffix].
  - apply strtod_suffix.
Qed.

Lemma parse_one_boundary p : boundary (snd (parse_one p)).
Proof.
  rewrite parse_one_eq. cbn [snd]. apply boundary_head.
  unfold skip_while. fold nonspace. apply span_snd_head.
Qed.

Lemma parse_loop_at_most fuel p acc :
  (length p < fuel)%nat ->
  exists l,
    parse_loop fuel p acc = Some (acc ++ l) /\
    (length l <= length (tokens p))%nat.
Proof.
  revert p acc. induction fuel as [|fuel IH]; intros p acc Hf; [lia|].
  simpl parse_loop.
  destruct p as [|c0 p0];
    [exists []; split; [now rewrite app_nil_r | simpl; lia]|].
  rewrite <- (tokens_skip (c0 :: p0)).
  pose proof (suffix_length _ _ (skip_while_suffix isspace (c0 :: p0))) as Sw.
  destruct (skip_while isspace (c0 :: p0)) as [|c p] eqn:E;
    [exists []; split; [now rewrite app_nil_r | simpl; lia]|].
  apply skip_space_head in E.
  pose proof (parse_one_progress c p E) as Hp.
  pose proof (parse_one_suffix (c :: p)) as Hs.
  pose proof (parse_one_boundary (c :: p)) as Hb.
  destruct (token_split c p E) as (t & r & Heq & Ht & Hn & Hr).
  destruct (parse_one (c :: p)) as [tup p']; cbn [snd] in *.
  rewrite Heq in Hs |- *. rewrite tokens_token by assumption.
  destruct (IH p' (acc ++ [tup])) as (l & Hl & Hlen); [simpl in *; lia|].
  exists (tup :: l). split; [now rewrite Hl, <- app_assoc|].
  pose proof (tokens_suffix_boundary p' r
                (suffix_past_token p' t r Hs Hb Hn) Hb).
  simpl. lia.
Qed.

(** ** Tokens of the grammar *)

Lemma kml_token_parse t xy :
  kml_token t xy -> token_complete t = true /\ token_coord t = xy.
Proof.
  intros [a b lon lat (Ha & _ & Sa) (Hb & _ & Sb)
         |a b c lon lat alt (Ha & _ & Sa) (Hb & _ & Sb) (Hc & _ & Sc)].
  - assert (S1 : strtod (a ++ "," :: b)%char = (lon, ("," :: b)%char))
      by (rewrite strtod_comma, Sa; reflexivity).
    split.
    + apply token_complete_eq. rewrite S1. cbn. rewrite Sb. cbn.
      split; [assumption | discriminate].
    + unfold token_coord. rewrite parse_one_eq, S1. cbn. now rewrite Sb.
  - assert (S1 : strtod (a ++ "," :: b ++ "," :: c)%char
                 = (lon, ("," :: b ++ "," :: c)%char))
      by (rewrite strtod_comma, Sa; reflexivity).
    assert (S2 : strtod (b ++ "," :: c)%char = (lat, ("," :: c)%char))
      by (rewrite strtod_comma, Sb; reflexivity).
    split.
    + apply token_complete_eq. rewrite S1. cbn. rewrite S2. cbn.
      split; [destruct b; discriminate | congruence].
    + unfold token_coord. rewrite parse_one_eq, S1. cbn. now rewrite S2.
Qed.

Lemma kml_tokens_parse ts coords :
  Forall2 kml_token ts coords ->
  forallb token_complete ts = true /\
  map token_coord ts = coords.
Proof.
  induction 1 as [|t xy ts coords H _ [IH1 IH2]]; [split; reflexivity|].
  destruct (kml_token_parse t xy H) as [H1 H2]. simpl.
  now rewrite H1, H2, IH1, IH2.
Qed.

End CkmlFacts.


(* ================================================================== *)
(** * [cgeom]: the loops as folds over the ring *)
(* ================================================================== *)

Module CgeomFacts.

Import Cgeom.

Section Loops.

Context {X S : Type}.

Lemma for_range_ext count start (body body' : nat -> S -> option S) s :
  (forall i s', (start <= i < start + count)%nat -> body i s' = body' i s') ->
  for_range count start body s = for_range count start body' s.
Proof.
  revert start s. induction count as [|count IH]; intros start s H; simpl;
    [reflexivity|].
  rewrite H by lia. destruct (body' start s) as [s'|]; simpl; [|reflexivity].
  apply IH. intros i s'' Hi. apply H. lia.
Qed.

Lemma for_range_items (f : X -> S -> option S) (pre l : list X) s :
  for_range (length l) (length pre)
    (fun i s' => bind (nth_error (pre ++ l) i) (fun x => f x s')) s
  = fold_items f l s.
Proof.
  revert pre s. induction l as [|x l IH]; intros pre s; simpl; [reflexivity|].
  rewrite nth_error_app2, Nat.sub_diag by lia. simpl.
  destruct (f x s) as [s'|]; simpl; [|reflexivity].
  specialize (IH (pre ++ [x]) s').
  rewrite length_app, <- app_assoc in IH. simpl in IH.
  now rewrite Nat.add_1_r in IH.
Qed.

Lemma for_range_list (f : X -> S -> option S) (l : list X) s :
  for_range (length l) 0
    (fun i s' => bind (nth_error l i) (fun x => f x s')) s
  = fold_items f l s.
Proof. exact (for_range_items f [] l s). Qed.

End Loops.

Lemma fold_items_coords {F S : Type} (f : pyobj F -> S -> option S)
    (g : S -> F * F -> S) (ring : list (F * F)) s :
  (forall c s', f (PyCoord c) s' = Some (g s' c)) ->
  fold_items f (map PyCoord ring) s = Some (fold_left g ring s).
Proof.
  intros H. revert s. induction ring as [|c ring IH]; intros s; simpl;
    [reflexivity|].
  rewrite H. simpl. apply IH.
Qed.

(** ** Chains and rings *)

Section Chains.

Context {X : Type}.

Lemma chain_cons2 (a b : X) l : chain (a :: b :: l) = (a, b) :: chain (b :: l).
Proof. reflexivity. Qed.

Lemma chain_app_cons (x : list X) b y :
  chain (x ++ b :: y) = chain (x ++ [b]) ++ chain (b :: y).
Proof.
  induction x as [|a x IH]; [reflexivity|].
  destruct x as [|c x]; [reflexivity|].
  change (chain ((a :: c :: x) ++ b :: y))
    with ((a, c) :: chain ((c :: x) ++ b :: y)).
  rewrite IH. reflexivity.
Qed.


Lemma last_snoc (x : list X) a d : last (x ++ [a]) d = a.
Proof. apply last_last. Qed.

Lemma last_cons (a : X) l d : last (a :: l) d = last l a.
Proof.
  revert a d. induction l as [|b l IH]; intros a d; [reflexivity|].
  change (last (a :: b :: l) d) with (last (b :: l) d).
  rewrite IH. symmetry. apply IH.
Qed.


Lemma chain_map {Y : Type} (f : X -> Y) l :
  chain (map f l) = map (fun e => (f (fst e), f (snd e))) (chain l).
Proof.
  induction l as [|a l IH]; [reflexivity|].
  destruct l as [|b l]; [reflexivity|].
  change (chain (map f (a :: b :: l)))
    with ((f a, f b) :: chain (map f (b :: l))).
  rewrite IH. reflexivity.
Qed.

Lemma last_map {Y : Type} (f : X -> Y) l d :
  last (map f l) (f d) = f (last l d).
Proof.
  induction l as [|a l IH]; [reflexivity|].
  destruct l as [|b l]; [reflexivity|]. exact IH.
Qed.

Lemma nth_error_chain (l : list X) i :
  nth_error (chain l) i =
  match nth_error l i, nth_error l (S i) with
  | Some a, Some b => Some (a, b)
  | _, _ => None
  end.
Proof.
  revert i. induction l as [|a l IH]; intros i.
  - now destruct i.
  - destruct l as [|b l].
    + destruct i as [|[|i]]; reflexivity.
    + rewrite chain_cons2. destruct i as [|i]; [reflexivity|].
      simpl nth_error at 1. rewrite IH. reflexivity.
Qed.

(** The edge that starts at index [i] of a ring ends at index
    [(i + 1) % n]. *)
Lemma nth_error_ring_edges (ring : list X) i :
  (i < length ring)%nat ->
  nth_error (ring_edges ring) i =
  match nth_error ring i, nth_error ring ((i + 1) mod length ring) with
  | Some a, Some b => Some (a, b)
  | _, _ => None
  end.
Proof.
  intros Hi. destruct ring as [|a ring]; [simpl in Hi; lia|].
  unfold ring_edges. rewrite nth_error_chain.
  rewrite nth_error_app1 by assumption.
  destruct (nth_error (a :: ring) i) as [x|]; [|reflexivity].
  destruct (Nat.eq_dec (S i) (length (a :: ring))) as [E|E].
  - rewrite nth_error_app2 by lia.
    replace (S i - length (a :: ring))%nat with 0%nat by lia.
    replace ((i + 1) mod length (a :: ring))%nat with 0%nat
      by (rewrite Nat.add_1_r, E, Nat.Div0.mod_same; reflexivity).
    reflexivity.
  - rewrite nth_error_app1 by lia.
    rewrite Nat.mod_small by lia. now rewrite Nat.add_1_r.
Qed.

Lemma length_chain (l : list X) : length (chain l) = (length l - 1)%nat.
Proof.
  induction l as [|a l IH]; [reflexivity|].
  destruct l as [|b l]; [reflexivity|].
  rewrite chain_cons2. simpl length. simpl length in IH. lia.
Qed.

Lemma length_ring_edges (ring : list X) :
  length (ring_edges ring) = length ring.
Proof.
  destruct ring as [|a l]; [reflexivity|].
  unfold ring_edges. rewrite length_chain, length_app. simpl. lia.
Qed.

(** Starting the ring at another vertex rotates its list of edges. *)
Lemma ring_edges_app (x y : list X) :
  exists ex ey, ring_edges (x ++ y) = ex ++ ey /\
                ring_edges (y ++ x) = ey ++ ex.
Proof.
  destruct x as [|a x]; [exists [], (ring_edges y); now rewrite !app_nil_r|].
  destruct y as [|b y];
    [exists (ring_edges (a :: x)), []; now rewrite !app_nil_r|].
  exists (chain ((a :: x) ++ [b])), (chain ((b :: y) ++ [a])). split.
  - replace (ring_edges ((a :: x) ++ b :: y))
      with (chain ((a :: x) ++ b :: (y ++ [a])))
      by (unfold ring_edges; simpl; now rewrite <- app_assoc).
    now rewrite chain_app_cons.
  - replace (ring_edges ((b :: y) ++ a :: x))
      with (chain ((b :: y) ++ a :: (x ++ [b])))
      by (unfold ring_edges; simpl; now rewrite <- app_assoc).
    now rewrite chain_app_cons.
Qed.








End Chains.



(** ** The three functions on a ring of coordinate tuples *)

Section Generic.

Context {F : Type} {A : Arith F}.
#[local] Open Scope arith_scope.

Lemma nth_error_last_coord (a : F * F) (ring : list (F * F)) :
  nth_error (map PyCoord (a :: ring)) (length (map PyCoord (a :: ring)) - 1)
  = Some (PyCoord (last (a :: ring) a)).
Proof.
  destruct (exists_last (l := a :: ring)) as (x & z & E); [discriminate|].
  rewrite E, last_snoc, map_app, length_app. simpl length.
  rewrite nth_error_app2 by lia.
  replace (length (map PyCoord x) + 1 - 1 - length (map PyCoord x))%nat
    with 0%nat by lia.
  reflexivity.
Qed.

Lemma fold_left_sums (ring : list (F * F)) (sl so : F) :
  fold_left (fun (s : F * F) (c : F * F) => (fst s + fst c, snd s + snd c))
            ring (sl, so)
  = (fold_left add (map fst ring) sl, fold_left add (map snd ring) so).
Proof.
  revert sl so. induction ring as [|c ring IH]; intros sl so; simpl;
    [reflexivity|]. apply IH.
Qed.

Lemma fold_left_shoelace (proj : F * F -> F * F) (ring : list (F * F))
    (area : F) (prev : F * F) :
  fold_left (fun (s : F * F * F) (c : F * F) =>
               (fst (fst s) +
                  (snd (fst s) * snd (proj c) - fst (proj c) * snd s),
                fst (proj c), snd (proj c)))
            ring (area, fst prev, snd prev)
  = (fold_left add (map cross (chain (prev :: map proj ring))) area,
     fst (last (map proj ring) prev), snd (last (map proj ring) prev)).
Proof.
  revert area prev. induction ring as [|c ring IH]; intros area prev.
  - reflexivity.
  - cbn [fold_left fst snd]. rewrite (IH _ (proj c)).
    cbn [map]. rewrite chain_cons2. cbn [map fold_left cross fst snd].
    now rewrite (last_cons (proj c) (map proj ring) prev).
Qed.

(** [py_polygon_area] on a ring of three or more tuples computes the
    shoelace formula of the specification. *)
Lemma polygon_area_coords (ring : list (F * F)) :
  (3 <= length ring)%nat ->
  py_polygon_area (map PyCoord ring) = Some (shoelace_area ring).
Proof.
  intros Hn. unfold py_polygon_area.
  assert (Hlt : (length (map PyCoord ring) <? 3)%nat = false)
    by (apply Nat.ltb_ge; now rewrite length_map).
  rewrite Hlt.
  destruct ring as [|a ring']; [simpl in Hn; lia|].
  set (ring := a :: ring') in *.
  (* the sums *)
  rewrite (for_range_ext _ _ _
    (fun i s' => bind (nth_error (map PyCoord ring) i) (fun item =>
       bind (parse_dd item) (fun c =>
         Some (fst s' + fst c, snd s' + snd c)))))
    by (intros i [sl so] _; unfold PySequence_Fast_GET_ITEM;
        destruct (nth_error (map PyCoord ring) i) as [[[lat lon]|]|];
        reflexivity).
  rewrite for_range_list.
  rewrite (fold_items_coords _
    (fun (s : F * F) (c : F * F) => (fst s + fst c, snd s + snd c)))
    by reflexivity.
  rewrite fold_left_sums. cbn [bind].
  rewrite length_map.
  set (lat0 := fold_left add (map fst ring) (lit 0 0)
               / of_ssize (Z.of_nat (length ring))).
  set (lon0 := fold_left add (map snd ring) (lit 0 0)
               / of_ssize (Z.of_nat (length ring))).
  (* the last item *)
  unfold PySequence_Fast_GET_ITEM at 1.
  rewrite <- (length_map (@PyCoord F) ring) at 1.
  unfold ring at 1 2. rewrite nth_error_last_coord. fold ring.
  cbn [bind parse_dd].
  destruct (last ring a) as [latp lonp] eqn:El.
  (* the shoelace sum *)
  set (proj := project lat0 lon0).
  rewrite <- (length_map (@PyCoord F) ring) at 1.
  rewrite (for_range_ext _ _ _
    (fun i s' => bind (nth_error (map PyCoord ring) i) (fun item =>
       bind (parse_dd item) (fun c =>
         Some (fst (fst s') +
                 (snd (fst s') * snd (proj c) - fst (proj c) * snd s'),
               fst (proj c), snd (proj c))))))
    by (intros i [[area px] py] _; unfold PySequence_Fast_GET_ITEM;
        destruct (nth_error (map PyCoord ring) i) as [[[lat lon]|]|];
        reflexivity).
  rewrite for_range_list.
  rewrite (fold_items_coords _
    (fun (s : F * F * F) (c : F * F) =>
       (fst (fst s) + (snd (fst s) * snd (proj c) - fst (proj c) * snd s),
        fst (proj c), snd (proj c))))
    by reflexivity.
  change ((lonp - lon0) * cos (lat0 * M_PI / lit 180 0))
    with (fst (proj (latp, lonp))).
  change (latp - lat0) with (snd (proj (latp, lonp))).
  rewrite fold_left_shoelace. cbn [bind].
  unfold shoelace_area, mean, sum.
  rewrite !length_map. fold lat0 lon0 proj.
  rewrite <- El, <- (last_map proj ring a). reflexivity.
Qed.

Lemma fold_left_parity {E : Type} (P : E -> bool) (l : list E) (b : bool) :
  fold_left (fun s e => xorb s (P e)) l b
  = xorb b (Nat.odd (length (filter P l))).
Proof.
  revert b. induction l as [|e l IH]; intros b; simpl.
  - now rewrite xorb_false_r.
  - rewrite IH. destruct (P e); simpl; [|now rewrite xorb_false_r].
    rewrite Nat.odd_succ, <- Nat.negb_odd.
    now destruct b, (Nat.odd (length (filter P l))).
Qed.

(** [py_point_in_polygon] on a ring of three or more tuples is the even-odd
    rule over the closed ring's edges. *)
Lemma point_in_polygon_coords (pt : F * F) (ring : list (F * F)) :
  (3 <= length ring)%nat ->
  py_point_in_polygon pt (map PyCoord ring) = Some (even_odd pt ring).
Proof.
  intros Hn. unfold py_point_in_polygon. destruct pt as [lat lon].
  assert (Hlt : (length (map PyCoord ring) <? 3)%nat = false)
    by (apply Nat.ltb_ge; now rewrite length_map).
  rewrite Hlt. rewrite length_map.
  rewrite (for_range_ext _ _ _
    (fun i s' => bind (nth_error (ring_edges ring) i) (fun e =>
       Some (xorb s' (crossing (lat, lon) e))))).
  - rewrite <- (length_ring_edges ring) at 1. rewrite for_range_list.
    assert (G : forall l b,
      fold_items (fun e s' => Some (xorb s' (crossing (lat, lon) e))) l b
      = Some (fold_left (fun s e => xorb s (crossing (lat, lon) e)) l b)).
    { induction l as [|e l IH]; intros b; simpl; [reflexivity | apply IH]. }
    rewrite G, fold_left_parity. reflexivity.
  - intros i inside Hi. unfold PySequence_Fast_GET_ITEM.
    rewrite nth_error_ring_edges by lia. rewrite !nth_error_map.
    assert (Hm : ((i + 1) mod length ring < length ring)%nat)
      by (apply Nat.mod_upper_bound; lia).
    destruct (nth_error ring i) as [[lat1 lon1]|] eqn:E1;
      [|apply nth_error_None in E1; lia].
    destruct (nth_error ring ((i + 1) mod length ring)) as [[lat2 lon2]|]
      eqn:E2; [|apply nth_error_None in E2; lia].
    cbn [option_map bind parse_dd crossing].
    destruct (xorb (lon1 > lon) (lon2 > lon)).
    + destruct (lat < _); [now rewrite xorb_true_r | now rewrite xorb_false_r].
    + now rewrite xorb_false_r.
Qed.

Lemma even_odd_rotate (pt : F * F) (k : nat) (ring : list (F * F)) :
  even_odd pt (rotate k ring) = even_odd pt ring.
Proof.
  unfold even_odd, rotate.
  rewrite <- (firstn_skipn k ring) at 3.
  destruct (ring_edges_app (firstn k ring) (skipn k ring))
    as (ex & ey & -> & ->).
  rewrite !filter_app, !length_app. f_equal. lia.
Qed.

Lemma length_rotate {X : Type} (k : nat) (l : list X) :
  length (rotate k l) = length l.
Proof.
  unfold rotate. rewrite length_app, Nat.add_comm, <- length_app.
  now rewrite firstn_skipn.
Qed.

End Generic.

End CgeomFacts.


(* ================================================================== *)
(** * Facts about binary64 arithmetic *)
(* ================================================================== *)

Module Binary64Facts.

Import Binary64.

(** ** Negation commutes with rounding *)

Lemma binary_round_aux_opp s m e l :
  binary_round_aux prec emax (negb s) m e l
  = SFopp (binary_round_aux prec emax s m e l).
Proof.
  unfold binary_round_aux.
  destruct (shr_fexp prec emax m e l) as [mrs' e'].
  destruct (shr_fexp prec emax _ e' loc_Exact) as [mrs'' e''].
  destruct (shr_m mrs''); try reflexivity.
  now destruct (e'' <=? emax - prec).
Qed.

Lemma binary_round_opp s m e :
  binary_round prec emax (negb s) m e = SFopp (binary_round prec emax s m e).
Proof.
  unfold binary_round. destruct (shl_align m e _) as [mz ez].
  apply binary_round_aux_opp.
Qed.

Lemma binary_normalize_opp m e :
  m <> 0 ->
  binary_normalize prec emax (- m) e false
  = SFopp (binary_normalize prec emax m e false).
Proof.
  destruct m as [|p|p]; [congruence| |]; intros _; simpl.
  - apply (binary_round_opp false).
  - now rewrite <- (binary_round_opp true).
Qed.

Lemma SFopp_involutive X : SFopp (SFopp X) = X.
Proof. destruct X; simpl; now rewrite ?negb_involutive. Qed.

Lemma SFmul_opp_l X Y :
  SFmul prec emax (SFopp X) Y = SFopp (SFmul prec emax X Y).
Proof.
  destruct X as [sx|sx| |sx mx ex], Y as [sy|sy| |sy my ey]; simpl;
    try reflexivity; try (now destruct sx, sy).
  rewrite <- binary_round_aux_opp. now destruct sx, sy.
Qed.

Lemma SFmul_comm X Y : SFmul prec emax X Y = SFmul prec emax Y X.
Proof.
  destruct X as [sx|sx| |sx mx ex], Y as [sy|sy| |sy my ey]; simpl;
    try reflexivity; try (now destruct sx, sy).
  now rewrite xorb_comm, Pos.mul_comm, Z.add_comm.
Qed.

Lemma SFdiv_opp_l X Y :
  SFdiv prec emax (SFopp X) Y = SFopp (SFdiv prec emax X Y).
Proof.
  destruct X as [sx|sx| |sx mx ex], Y as [sy|sy| |sy my ey]; simpl;
    try reflexivity; try (now destruct sx, sy).
  destruct (SFdiv_core_binary prec emax (Z.pos mx) ex (Z.pos my) ey)
    as [[mz ez] lz].
  rewrite <- binary_round_aux_opp. now destruct sx, sy.
Qed.

Lemma opp_involutive x : (- - x)%float = x.
Proof. apply Prim2SF_inj. rewrite !opp_spec. apply SFopp_involutive. Qed.

Lemma mul_opp_l x y : (- x * y)%float = (- (x * y))%float.
Proof.
  apply Prim2SF_inj. rewrite opp_spec, !mul_spec, opp_spec.
  apply SFmul_opp_l.
Qed.

Lemma mul_comm x y : (x * y)%float = (y * x)%float.
Proof. apply Prim2SF_inj. rewrite !mul_spec. apply SFmul_comm. Qed.

Lemma mul_opp_r x y : (x * - y)%float = (- (x * y))%float.
Proof. now rewrite mul_comm, mul_opp_l, mul_comm. Qed.

Lemma mul_opp_opp x y : (- x * - y)%float = (x * y)%float.
Proof. now rewrite mul_opp_l, mul_opp_r, opp_involutive. Qed.

Lemma div_opp_l x y : (- x / y)%float = (- (x / y))%float.
Proof.
  apply Prim2SF_inj. rewrite opp_spec, !div_spec, opp_spec.
  apply SFdiv_opp_l.
Qed.

Lemma abs_opp x : abs (- x) = abs x.
Proof.
  apply Prim2SF_inj. rewrite !abs_spec, opp_spec. now destruct (Prim2SF x).
Qed.

(** Swapping the operands of a subtraction negates the result, unless the
    result is the zero or the NaN both orders give. *)
Lemma SFsub_swap X Y :
  SFsub prec emax Y X = SFopp (SFsub prec emax X Y) \/
  SFsub prec emax Y X = SFsub prec emax X Y.
Proof.
  destruct X as [sx|sx| |sx mx ex], Y as [sy|sy| |sy my ey];
    try solve [simpl; auto
              | destruct sx; simpl; auto
              | destruct sy; simpl; auto
              | destruct sx, sy; simpl; auto].
  unfold SFsub.
  rewrite (Z.min_comm ey ex).
  set (a := cond_Zopp sx (Z.pos (fst (shl_align mx ex (Z.min ex ey))))).
  set (b := cond_Zopp sy (Z.pos (fst (shl_align my ey (Z.min ex ey))))).
  destruct (Z.eq_dec (a - b) 0) as [E|E].
  - right. replace (b - a) with 0 by lia. now rewrite E.
  - left. replace (b - a) with (- (a - b)) by lia.
    now apply binary_normalize_opp.
Qed.

Lemma sub_swap x y :
  (y - x)%float = (- (x - y))%float \/ (y - x)%float = (x - y)%float.
Proof.
  destruct (SFsub_swap (Prim2SF x) (Prim2SF y)) as [H|H]; [left|right];
    apply Prim2SF_inj; rewrite ?opp_spec, !sub_spec; exact H.
Qed.

(** ** Finite values *)

Lemma SFcompare_refl_finite s m e :
  SFcompare (S754_finite s m e) (S754_finite s m e) = Some Eq.
Proof.
  simpl. rewrite Z.compare_refl, Pos.compare_cont_refl. now destruct s.
Qed.

Lemma is_finite_spec x :
  PrimFloat.is_finite x = true <-> finite_sf (Prim2SF x).
Proof.
  unfold PrimFloat.is_finite, PrimFloat.is_nan, PrimFloat.is_infinity.
  rewrite !eqb_spec, abs_spec.
  change (Prim2SF infinity) with (S754_infinity false).
  destruct (Prim2SF x) as [s|s| |s m e]; unfold SFeqb.
  - simpl. tauto.
  - destruct s; simpl; split; (discriminate || contradiction).
  - simpl. split; (discriminate || contradiction).
  - rewrite SFcompare_refl_finite. simpl. tauto.
Qed.

Lemma sub_self x : PrimFloat.is_finite x = true -> (x - x)%float = 0%float.
Proof.
  intros H%is_finite_spec. apply Prim2SF_inj. rewrite sub_spec.
  change (Prim2SF 0) with (S754_zero false).
  destruct (Prim2SF x) as [s|s| |s m e]; try contradiction.
  - now destruct s.
  - unfold SF64sub, SFsub. now rewrite Z.sub_diag.
Qed.

Lemma mul_zero_r x :
  PrimFloat.is_finite x = true ->
  (x * 0)%float = 0%float \/ (x * 0)%float = (-0)%float.
Proof.
  intros H%is_finite_spec.
  assert (E : Prim2SF (x * 0) = S754_zero false \/
              Prim2SF (x * 0) = S754_zero true).
  { rewrite mul_spec. change (Prim2SF 0) with (S754_zero false).
    destruct (Prim2SF x) as [s|s| |s m e]; try contradiction;
      destruct s; simpl; auto. }
  destruct E as [E|E]; [left|right]; apply Prim2SF_inj; rewrite E;
    reflexivity.
Qed.

Lemma mul_nan_l x : (nan * x)%float = nan.
Proof. apply Prim2SF_inj. rewrite mul_spec. reflexivity. Qed.

Lemma add_nan_r x : (x + nan)%float = nan.
Proof.
  apply Prim2SF_inj. rewrite add_spec. change (Prim2SF nan) with S754_nan.
  now destruct (Prim2SF x).
Qed.

(** ** Digits, shifts and rounding *)

Lemma digits2_size p : digits2_pos p = Pos.size p.
Proof. induction p; simpl; congruence. Qed.

Lemma Zdigits2_log2 p : Zdigits2 (Z.pos p) = Z.log2 (Z.pos p) + 1.
Proof.
  simpl. rewrite digits2_size. destruct p; simpl; try reflexivity;
    rewrite Pos2Z.inj_succ; lia.
Qed.

Lemma Zdigits2_nonneg m : 0 <= Zdigits2 m.
Proof. destruct m; simpl; lia. Qed.

Lemma Zdigits2_mono a b : 0 <= a <= b -> Zdigits2 a <= Zdigits2 b.
Proof.
  intros [Ha Hab]. destruct a as [|p|p]; [apply Zdigits2_nonneg | | lia].
  destruct b as [|q|q]; try lia.
  rewrite !Zdigits2_log2. apply Z.add_le_mono_r, Z.log2_le_mono. lia.
Qed.

Lemma Zdigits2_succ a : 0 <= a -> Zdigits2 (a + 1) <= Zdigits2 a + 1.
Proof.
  intros Ha. destruct a as [|p|p]; [simpl; lia | | lia].
  change (Z.pos p + 1) with (Z.pos (p + 1)).
  rewrite !Zdigits2_log2. rewrite Pos2Z.inj_add.
  pose proof (Z.log2_succ_le (Z.pos p)). unfold Z.succ in *. lia.
Qed.

Lemma Zdigits2_mul p q :
  Zdigits2 (Z.pos (p * q)) <= Zdigits2 (Z.pos p) + Zdigits2 (Z.pos q).
Proof.
  rewrite !Zdigits2_log2, Pos2Z.inj_mul.
  pose proof (Z.log2_mul_above (Z.pos p) (Z.pos q)). lia.
Qed.

Lemma shr_1_m mrs : 0 <= shr_m mrs -> shr_m (shr_1 mrs) = shr_m mrs / 2.
Proof.
  destruct mrs as [m r s]. cbn [shr_m]. intros H. rewrite <- Z.div2_div.
  destruct m as [|[p|p|]|p]; [reflexivity .. | lia].
Qed.

Lemma pow2_pos n : 0 <= n -> 0 < 2 ^ n.
Proof. intros. now apply Z.pow_pos_nonneg. Qed.

Lemma pow2_xO p : 2 ^ Z.pos p~0 = 2 ^ Z.pos p * 2 ^ Z.pos p.
Proof.
  assert (E : Z.pos p~0 = Z.pos p + Z.pos p) by lia.
  rewrite E. now rewrite Z.pow_add_r by lia.
Qed.

Lemma pow2_xI p : 2 ^ Z.pos p~1 = 2 * (2 ^ Z.pos p * 2 ^ Z.pos p).
Proof.
  assert (E : Z.pos p~1 = 1 + (Z.pos p + Z.pos p)) by lia.
  rewrite E. now rewrite !Z.pow_add_r by lia.
Qed.

Lemma iter_shr_1_m p mrs :
  0 <= shr_m mrs ->
  shr_m (SpecFloat.iter_pos shr_1 p mrs) = shr_m mrs / 2 ^ Z.pos p.
Proof.
  revert mrs. induction p as [p IH|p IH|]; intros mrs H;
    simpl SpecFloat.iter_pos.
  - assert (H1 : 0 <= shr_m (shr_1 mrs))
      by (rewrite shr_1_m by assumption; now apply Z.div_pos).
    assert (H2 : 0 <= shr_m (SpecFloat.iter_pos shr_1 p (shr_1 mrs)))
      by (rewrite IH by assumption;
          apply Z.div_pos; [assumption | now apply pow2_pos]).
    rewrite IH, IH, shr_1_m by assumption.
    pose proof (pow2_pos (Z.pos p) ltac:(lia)).
    rewrite !Z.div_div by lia. now rewrite pow2_xI.
  - assert (H2 : 0 <= shr_m (SpecFloat.iter_pos shr_1 p mrs))
      by (rewrite IH by assumption;
          apply Z.div_pos; [assumption | now apply pow2_pos]).
    rewrite IH, IH by assumption.
    pose proof (pow2_pos (Z.pos p) ltac:(lia)).
    rewrite !Z.div_div by lia. now rewrite pow2_xO.
  - now rewrite shr_1_m.
Qed.

Lemma shr_spec mrs e n :
  0 <= shr_m mrs ->
  shr_m (fst (shr mrs e n)) = shr_m mrs / 2 ^ Z.max n 0 /\
  snd (shr mrs e n) = e + Z.max n 0.
Proof.
  intros H. destruct n as [|p|p]; simpl.
  - now rewrite Z.div_1_r, Z.add_0_r.
  - split; [now apply iter_shr_1_m | reflexivity].
  - now rewrite Z.div_1_r, Z.add_0_r.
Qed.

Lemma shr_record_m m l : shr_m (shr_record_of_loc m l) = m.
Proof. now destruct l as [|[]]. Qed.

Lemma shr_fexp_spec m e l :
  0 <= m ->
  shr_m (fst (shr_fexp prec emax m e l)) = m / 2 ^ shift_of m e /\
  snd (shr_fexp prec emax m e l) = e + shift_of m e.
Proof.
  intros H. unfold shr_fexp, shift_of.
  rewrite <- (shr_record_m m l) at 3. apply shr_spec.
  now rewrite shr_record_m.
Qed.

Lemma round_nearest_even_bounds m l :
  m <= round_nearest_even m l <= m + 1.
Proof.
  destruct l as [|[]]; simpl; try lia. destruct (Z.even m); lia.
Qed.

(** What [binary_round_aux] returns for a mantissa that is not negative:
    the mantissa and exponent after the two shifts decide. *)
Lemma binary_round_aux_inv s m e l :
  0 <= m ->
  exists m2,
    m / 2 ^ shift_of m e <= m2 <= m / 2 ^ shift_of m e + 1 /\
    let e1 := e + shift_of m e in
    let m3 := m2 / 2 ^ shift_of m2 e1 in
    let e3 := e1 + shift_of m2 e1 in
    binary_round_aux prec emax s m e l =
    match m3 with
    | 0 => S754_zero s
    | Z.pos p =>
        if e3 <=? emax - prec then S754_finite s p e3 else S754_infinity s
    | Z.neg _ => S754_nan
    end.
Proof.
  intros H. unfold binary_round_aux.
  destruct (shr_fexp_spec m e l H) as [M1 E1].
  destruct (shr_fexp prec emax m e l) as [mrs' e']; cbn [fst snd] in M1, E1.
  set (m2 := round_nearest_even (shr_m mrs') (loc_of_shr_record mrs')).
  pose proof (round_nearest_even_bounds (shr_m mrs') (loc_of_shr_record mrs'))
    as B2. fold m2 in B2. rewrite M1 in B2.
  assert (H1 : 0 <= m / 2 ^ shift_of m e)
    by (apply Z.div_pos; [assumption | apply pow2_pos; unfold shift_of; lia]).
  destruct (shr_fexp_spec m2 e' loc_Exact ltac:(lia)) as [M3 E3].
  destruct (shr_fexp prec emax m2 e' loc_Exact) as [mrs'' e''];
    cbn [fst snd] in M3, E3.
  exists m2. split; [exact B2|]. cbn zeta. rewrite <- E1, <- M3, <- E3.
  reflexivity.
Qed.

Lemma div_pow2_le m n : 0 <= m -> 0 <= n -> m / 2 ^ n <= m.
Proof.
  intros Hm Hn. pose proof (pow2_pos n Hn).
  apply Z.div_le_upper_bound; [lia | nia].
Qed.

Lemma binary_round_aux_bound s m e l d :
  0 <= m -> Zdigits2 m <= d -> round_bound e d <= emax - prec ->
  binary_round_aux prec emax s m e l = S754_zero s \/
  exists p e3,
    binary_round_aux prec emax s m e l = S754_finite s p e3 /\
    e3 <= round_bound e d.
Proof.
  intros Hm Hd He.
  destruct (binary_round_aux_inv s m e l Hm) as (m2 & B2 & ->).
  assert (S1 : 0 <= shift_of m e) by (unfold shift_of; lia).
  pose proof (div_pow2_le m _ Hm S1) as L1.
  assert (P1 : 0 <= m / 2 ^ shift_of m e)
    by (apply Z.div_pos; [assumption | now apply pow2_pos]).
  assert (D2 : Zdigits2 m2 <= d + 1).
  { transitivity (Zdigits2 (m + 1)).
    - apply Zdigits2_mono. lia.
    - pose proof (Zdigits2_succ m Hm). lia. }
  pose proof (Zdigits2_nonneg m) as N1.
  pose proof (Zdigits2_nonneg m2) as N2.
  set (e1 := e + shift_of m e) in *.
  assert (S2 : 0 <= shift_of m2 e1) by (unfold shift_of; lia).
  assert (Hm3 : 0 <= m2 / 2 ^ shift_of m2 e1)
    by (apply Z.div_pos; [lia | now apply pow2_pos]).
  assert (He3 : e1 + shift_of m2 e1 <= round_bound e d)
    by (unfold e1, round_bound, shift_of, fexp, SpecFloat.emin, prec, emax
          in *; lia).
  destruct (m2 / 2 ^ shift_of m2 e1) as [|p|p] eqn:E3; [now left| |lia].
  right. exists p, (e1 + shift_of m2 e1). split; [|exact He3].
  replace (e1 + shift_of m2 e1 <=? emax - prec) with true; [reflexivity|].
  symmetry. apply Z.leb_le. lia.
Qed.

(** Rounding a positive mantissa at an exponent of the format never gives
    zero: nothing is lost below the smallest subnormal. *)
Lemma shift_keeps_positive m e :
  0 < m -> emin <= e -> 0 < m / 2 ^ shift_of m e.
Proof.
  intros Hm He.
  assert (S1 : 0 <= shift_of m e) by (unfold shift_of; lia).
  apply Z.div_str_pos. split; [now apply pow2_pos|].
  destruct m as [|p|p]; try lia.
  destruct (Z.eq_dec (shift_of (Z.pos p) e) 0) as [->|NZ]; [simpl; lia|].
  assert (Hs : shift_of (Z.pos p) e = Z.log2 (Z.pos p) + 1 - prec).
  { unfold shift_of in *. rewrite Zdigits2_log2 in *.
    unfold fexp, SpecFloat.emin, prec, emax in *. lia. }
  rewrite Hs.
  destruct (Z.log2_spec (Z.pos p) ltac:(lia)) as [L _].
  transitivity (2 ^ Z.log2 (Z.pos p)); [|exact L].
  apply Z.pow_le_mono_r; [lia|]. unfold prec. lia.
Qed.

Lemma binary_round_aux_nonzero s m e l :
  0 < m -> emin <= e ->
  forall s', binary_round_aux prec emax s m e l <> S754_zero s'.
Proof.
  intros Hm He s'.
  destruct (binary_round_aux_inv s m e l ltac:(lia)) as (m2 & B2 & ->).
  pose proof (shift_keeps_positive m e Hm He) as P1.
  assert (E1 : emin <= e + shift_of m e) by (unfold shift_of; lia).
  pose proof (shift_keeps_positive m2 _ ltac:(lia) E1) as P3.
  destruct (m2 / 2 ^ shift_of m2 (e + shift_of m e)) as [|p|p]; try lia.
  now destruct (_ <=? _).
Qed.

Lemma fexp_emin x : emin <= fexp prec emax x.
Proof. unfold fexp. lia. Qed.

Lemma binary_round_nonzero s m e :
  emin <= e -> forall s', binary_round prec emax s m e <> S754_zero s'.
Proof.
  intros He s'. unfold binary_round, shl_align.
  destruct (fexp prec emax (Z.pos (digits2_pos m) + e) - e) eqn:E;
    apply binary_round_aux_nonzero; try lia.
  apply fexp_emin.
Qed.

Lemma bounded_inv m e :
  SpecFloat.bounded prec emax m e = true ->
  Zdigits2 (Z.pos m) <= prec /\ emin <= e <= emax - prec.
Proof.
  unfold SpecFloat.bounded, canonical_mantissa.
  intros [H1%Z.eqb_eq H2%Z.leb_le]%andb_true_iff.
  change (Z.pos (digits2_pos m)) with (Zdigits2 (Z.pos m)) in H1.
  unfold fexp in H1. lia.
Qed.

(** A sum is the negative zero only when both terms are. *)
Lemma SFadd_neg_zero X Y :
  valid_binary X = true -> valid_binary Y = true ->
  SFadd prec emax X Y = S754_zero true ->
  X = S754_zero true /\ Y = S754_zero true.
Proof.
  intros VX VY.
  destruct X as [sx|sx| |sx mx ex], Y as [sy|sy| |sy my ey]; simpl;
    try discriminate;
    try (destruct sx, sy; (discriminate || tauto)).
  intros H. exfalso.
  destruct (bounded_inv _ _ VX) as [_ [Ex _]].
  destruct (bounded_inv _ _ VY) as [_ [Ey _]].
  unfold binary_normalize in H.
  destruct (cond_Zopp sx _ + cond_Zopp sy _); [discriminate| |];
    (eapply binary_round_nonzero; [|exact H]); lia.
Qed.

(** The product of two finite doubles whose exponents add up to at most
    [be] is finite, with an exponent of at most [round_bound be 106]. *)
Lemma SFmul_bound sx mx ex sy my ey be :
  SpecFloat.bounded prec emax mx ex = true -> SpecFloat.bounded prec emax my ey = true ->
  ex + ey <= be -> round_bound be 106 <= emax - prec ->
  let P := SFmul prec emax (S754_finite sx mx ex) (S754_finite sy my ey) in
  P = S754_zero (xorb sx sy) \/
  exists p e, P = S754_finite (xorb sx sy) p e /\ e <= round_bound be 106.
Proof.
  intros [Dx _]%bounded_inv [Dy _]%bounded_inv He Hb. cbn zeta. simpl SFmul.
  pose proof (Zdigits2_mul mx my) as Dm.
  assert (Hb' : round_bound (ex + ey) 106 <= round_bound be 106)
    by (unfold round_bound; lia).
  destruct (binary_round_aux_bound (xorb sx sy) (Z.pos (mx * my)) (ex + ey)
              loc_Exact 106) as [H|(p & e & H & Hle)];
    try lia; [unfold prec in *; lia | now left |].
  right. exists p, e. split; [exact H | lia].
Qed.

(** ** Signs and magnitudes *)

Lemma binary_round_aux_sign s m e l :
  has_sign s (binary_round_aux prec emax s m e l).
Proof.
  unfold binary_round_aux.
  destruct (shr_fexp prec emax m e l) as [mrs' e'].
  destruct (shr_fexp prec emax _ e' loc_Exact) as [mrs'' e''].
  destruct (shr_m mrs''); [reflexivity | | exact I].
  now destruct (e'' <=? emax - prec).
Qed.

Lemma SFmul_self_sign X : has_sign false (SFmul prec emax X X).
Proof.
  destruct X as [s|s| |s m e]; simpl; try (now destruct s); try exact I.
  rewrite xorb_nilpotent. apply binary_round_aux_sign.
Qed.

Lemma SFsqrt_sign X :
  X <> S754_zero true -> has_sign false (SFsqrt prec emax X).
Proof.
  destruct X as [s|s| |s m e]; try (destruct s); simpl; try congruence;
    try (intros _; exact I).
  intros _.
  destruct (SFsqrt_core_binary prec emax (Z.pos m) e) as [[mz ez] lz].
  apply binary_round_aux_sign.
Qed.

Lemma sign_clear_spec x :
  sign_clear x = true <-> has_sign false (Prim2SF x).
Proof.
  unfold sign_clear.
  destruct (Prim2SF x) as [[]|[]| |[] m e]; simpl; split;
    congruence || tauto.
Qed.

(** The square root of a sum whose first term is a square has its sign bit
    clear (or is NaN). *)
Lemma sqrt_square_plus_sign s t :
  sign_clear (PrimFloat.sqrt (s * s + t)) = true.
Proof.
  apply sign_clear_spec. rewrite sqrt_spec. apply SFsqrt_sign.
  rewrite add_spec. intros E.
  apply SFadd_neg_zero in E as [E _]; try apply Prim2SF_valid.
  pose proof (SFmul_self_sign (Prim2SF s)) as H.
  rewrite mul_spec in E. unfold SF64mul in E. rewrite E in H.
  discriminate H.
Qed.

Lemma is_nan_spec x : PrimFloat.is_nan x = true <-> Prim2SF x = S754_nan.
Proof.
  unfold PrimFloat.is_nan. rewrite eqb_spec. unfold SFeqb.
  destruct (Prim2SF x) as [s|s| |s m e].
  - simpl. split; discriminate.
  - destruct s; simpl; split; discriminate.
  - simpl. tauto.
  - rewrite SFcompare_refl_finite. simpl. split; discriminate.
Qed.

Lemma is_nan_eq x : PrimFloat.is_nan x = true -> x = nan.
Proof.
  intros H%is_nan_spec. apply Prim2SF_inj. now rewrite H.
Qed.

(** A double whose magnitude is at most that of a positive double [k] is
    zero or has an exponent that is at most [k]'s. *)
Lemma SFleb_abs_exponent X mk ek :
  SFleb (SFabs X) (S754_finite false mk ek) = true ->
  match X with
  | S754_zero _ => True
  | S754_finite _ _ e => e <= ek
  | _ => False
  end.
Proof.
  unfold SFleb. destruct X as [s|s| |s m e]; simpl; try discriminate;
    [trivial|].
  destruct (Z.compare_spec e ek); try discriminate; intros _; lia.
Qed.

Lemma finite_valid x s m e :
  Prim2SF x = S754_finite s m e -> SpecFloat.bounded prec emax m e = true.
Proof. intros H. pose proof (Prim2SF_valid x) as V. now rewrite H in V. Qed.

(** The product of two doubles of magnitude at most one is finite. *)
Lemma mul_unit_finite x y :
  (abs x <=? 1)%float = true -> (abs y <=? 1)%float = true ->
  PrimFloat.is_finite (x * y) = true.
Proof.
  rewrite !leb_spec, !abs_spec.
  change (Prim2SF 1) with (S754_finite false 4503599627370496 (-52)).
  intros Hx%SFleb_abs_exponent Hy%SFleb_abs_exponent.
  apply is_finite_spec. rewrite mul_spec. unfold SF64mul.
  destruct (Prim2SF x) as [sx|sx| |sx mx ex] eqn:Ex; try contradiction;
    destruct (Prim2SF y) as [sy|sy| |sy my ey] eqn:Ey; try contradiction;
    try exact I.
  destruct (SFmul_bound sx mx ex sy my ey (-104)
              (finite_valid _ _ _ _ Ex) (finite_valid _ _ _ _ Ey))
    as [-> | (p & e & -> & _)]; try exact I; [lia | vm_compute; discriminate].
Qed.

Lemma SFmul_small_nonneg X Y bx by_ :
  valid_binary X = true -> valid_binary Y = true ->
  small_nonneg bx X -> small_nonneg by_ Y ->
  round_bound (bx + by_) 106 <= emax - prec ->
  small_nonneg (round_bound (bx + by_) 106) (SFmul prec emax X Y).
Proof.
  intros VX VY HX HY Hb.
  destruct X as [sx|sx| |sx mx ex]; try contradiction;
    destruct Y as [sy|sy| |sy my ey]; try contradiction; simpl in HX, HY.
  - now subst.
  - destruct HY; now subst.
  - destruct HX; now subst.
  - destruct HX as [-> Hx], HY as [-> Hy].
    destruct (SFmul_bound false mx ex false my ey (bx + by_) VX VY)
      as [-> | (p & e & -> & He)]; simpl; auto; lia.
Qed.

Lemma small_nonneg_float x be :
  small_nonneg be (Prim2SF x) ->
  (x <? 0)%float = false /\ PrimFloat.is_infinity x = false.
Proof.
  unfold PrimFloat.is_infinity. rewrite ltb_spec, eqb_spec, abs_spec.
  change (Prim2SF 0) with (S754_zero false).
  change (Prim2SF infinity) with (S754_infinity false).
  destruct (Prim2SF x) as [s|s| |s m e]; simpl; try contradiction.
  - now intros ->.
  - now intros [-> _].
Qed.

End Binary64Facts.


(* ================================================================== *)
(** * [py_haversine_distance] in binary64 *)
(* ================================================================== *)

Module HaversineFacts.

Import Binary64 Binary64Facts Cgeom.

#[local] Open Scope float_scope.

(** The constants of [cgeom.c] as the compiler rounds them. *)
Lemma binary64_constants (L : libm) :
  M_PI (A := binary64 L) = pi64 /\
  lit (Arith := binary64 L) 180 0 = 180 /\
  lit (Arith := binary64 L) 6371000 0 = 6371000 /\
  lit (Arith := binary64 L) 111320 0 = 111320 /\
  lit (Arith := binary64 L) 1 (-12) = 1e-12.
Proof. repeat split; reflexivity. Qed.

Section Haversine.

Variable L : libm.

(** The function with its constants evaluated. *)
Lemma haversine_eq lat1 lon1 lat2 lon2 :
  py_haversine_distance (A := binary64 L) (lat1, lon1) (lat2, lon2) =
  let phi1 := lat1 * pi64 / 180 in
  let phi2 := lat2 * pi64 / 180 in
  let d_phi := (lat2 - lat1) * pi64 / 180 in
  let d_lambda := (lon2 - lon1) * pi64 / 180 in
  let a := m_sin L (d_phi / 2) * m_sin L (d_phi / 2) +
           m_cos L phi1 * m_cos L phi2 * m_sin L (d_lambda / 2)
                                       * m_sin L (d_lambda / 2) in
  6371000 * (2 * m_atan2 L (PrimFloat.sqrt a) (PrimFloat.sqrt (1 - a))).
Proof. reflexivity. Qed.

Hypothesis laws : libm_laws L.

Lemma half_sin_opp d : half_sin L (- d) = - half_sin L d.
Proof.
  unfold half_sin. now rewrite mul_opp_l, !div_opp_l, (sin_odd L laws).
Qed.

Lemma half_sin_sq_swap x y :
  half_sin L (y - x) * half_sin L (y - x) = half_sin L (x - y) * half_sin L (x - y).
Proof.
  destruct (sub_swap x y) as [-> | ->]; [|reflexivity].
  now rewrite half_sin_opp, mul_opp_opp.
Qed.

Lemma half_sin_term_swap c x y :
  c * half_sin L (y - x) * half_sin L (y - x)
  = c * half_sin L (x - y) * half_sin L (x - y).
Proof.
  destruct (sub_swap x y) as [-> | ->]; [|reflexivity].
  now rewrite half_sin_opp, (mul_opp_r c), mul_opp_opp.
Qed.

Lemma haversine_sym p1 p2 :
  py_haversine_distance (A := binary64 L) p1 p2
  = py_haversine_distance (A := binary64 L) p2 p1.
Proof.
  destruct p1 as [lat1 lon1], p2 as [lat2 lon2].
  rewrite !haversine_eq. cbn zeta. fold (half_sin L (lat2 - lat1)).
  fold (half_sin L (lon2 - lon1)). fold (half_sin L (lat1 - lat2)).
  fold (half_sin L (lon1 - lon2)).
  rewrite (half_sin_sq_swap lat1 lat2).
  rewrite (half_sin_term_swap _ lon1 lon2).
  now rewrite (mul_comm (m_cos L (lat1 * pi64 / 180))).
Qed.

Lemma radians_finite lat :
  PrimFloat.is_finite (lat * pi64 / 180) = true ->
  PrimFloat.is_finite lat = true.
Proof.
  intros H%is_finite_spec. apply is_finite_spec.
  rewrite div_spec, mul_spec in H.
  remember (Prim2SF pi64) as P eqn:EP. vm_compute in EP. subst P.
  remember (Prim2SF 180) as D eqn:ED. vm_compute in ED. subst D.
  destruct (Prim2SF lat) as [s|s| |s m e]; simpl in *; auto.
Qed.

(** The distance from a point to itself, while its latitude in radians is
    finite. *)
Lemma haversine_self lat lon :
  PrimFloat.is_finite lon = true ->
  PrimFloat.is_finite (lat * pi64 / 180) = true ->
  py_haversine_distance (A := binary64 L) (lat, lon) (lat, lon) = 0.
Proof.
  intros Hlon Hphi. pose proof (radians_finite lat Hphi) as Hlat.
  rewrite haversine_eq. cbn zeta.
  rewrite !sub_self by assumption.
  change (0 * pi64 / 180 / 2) with 0. rewrite (sin_zero L laws).
  set (c := m_cos L (lat * pi64 / 180)).
  assert (Hc : PrimFloat.is_finite (c * c) = true).
  { pose proof (cos_unit L laws _ Hphi). now apply mul_unit_finite. }
  destruct (mul_zero_r _ Hc) as [-> | ->].
  - change (PrimFloat.sqrt (0 * 0 + 0 * 0)) with 0.
    change (PrimFloat.sqrt (1 - (0 * 0 + 0 * 0))) with 1.
    now rewrite (atan2_zero L laws).
  - change (PrimFloat.sqrt (0 * 0 + -0 * 0)) with 0.
    change (PrimFloat.sqrt (1 - (0 * 0 + -0 * 0))) with 1.
    now rewrite (atan2_zero L laws).
Qed.

Lemma two_small : small_nonneg (-51) (Prim2SF 2).
Proof. vm_compute. split; [reflexivity | discriminate]. Qed.

Lemma radius_small : small_nonneg (-30) (Prim2SF 6371000).
Proof. vm_compute. split; [reflexivity | discriminate]. Qed.

(** A result of [atan2] within the range the laws give, doubled and scaled
    by the radius, is neither negative nor infinite. *)
Lemma scaled_angle_range c :
  sign_clear c = true -> (c <=? 4) = true ->
  (6371000 * (2 * c) <? 0) = false /\
  PrimFloat.is_infinity (6371000 * (2 * c)) = false.
Proof.
  intros Hs Hle.
  assert (Hc : small_nonneg (-50) (Prim2SF c)).
  { apply sign_clear_spec in Hs. rewrite leb_spec in Hle.
    change (Prim2SF 4) with (S754_finite false 4503599627370496 (-50))
      in Hle.
    destruct (Prim2SF c) as [sc|sc| |sc mc ec]; simpl in Hs; subst;
      try discriminate Hle; [reflexivity|].
    split; [reflexivity|].
    exact (SFleb_abs_exponent (S754_finite false mc ec) _ _ Hle). }
  assert (H2 : small_nonneg (round_bound (-51 + -50) 106)
                 (Prim2SF (2 * c))).
  { rewrite mul_spec. unfold SF64mul.
    apply SFmul_small_nonneg;
      [apply Prim2SF_valid | apply Prim2SF_valid | exact two_small
      | exact Hc | vm_compute; discriminate]. }
  apply (small_nonneg_float _
           (round_bound (-30 + round_bound (-51 + -50) 106) 106)).
  rewrite mul_spec. unfold SF64mul.
  apply SFmul_small_nonneg;
    [apply Prim2SF_valid | apply Prim2SF_valid | exact radius_small
    | exact H2 | vm_compute; discriminate].
Qed.

(** The distance is never negative and never infinite. *)
Lemma haversine_range p1 p2 :
  let d := py_haversine_distance (A := binary64 L) p1 p2 in
  (d <? 0) = false /\ PrimFloat.is_infinity d = false.
Proof.
  destruct p1 as [lat1 lon1], p2 as [lat2 lon2]. cbn zeta.
  rewrite haversine_eq. cbn zeta.
  set (s := m_sin L ((lat2 - lat1) * pi64 / 180 / 2)).
  set (t := m_cos L _ * m_cos L _ * _ * _).
  pose proof (sqrt_square_plus_sign s t) as Hy.
  destruct (atan2_range L laws _ (PrimFloat.sqrt (1 - (s * s + t))) Hy)
    as [Hn | [Hs Hle]].
  - rewrite (is_nan_eq _ Hn). split; reflexivity.
  - now apply scaled_angle_range.
Qed.

End Haversine.

(** ** Points where the result is NaN *)

Lemma haversine_self_nan L :
  libm_laws L ->
  py_haversine_distance (A := binary64 L) (1e308, 0) (1e308, 0) = nan.
Proof.
  intros laws. rewrite haversine_eq. cbn zeta.
  change (1e308 - 1e308) with 0. change (0 - 0) with 0.
  change (0 * pi64 / 180 / 2) with 0. rewrite (sin_zero L laws).
  change (1e308 * pi64 / 180) with infinity.
  rewrite (cos_invalid L laws infinity eq_refl).
  change (PrimFloat.sqrt (0 * 0 + nan * nan * 0 * 0)) with nan.
  change (PrimFloat.sqrt (1 - (0 * 0 + nan * nan * 0 * 0))) with nan.
  now rewrite (atan2_nan L laws nan nan eq_refl).
Qed.

Lemma haversine_overflow_nan L :
  libm_laws L ->
  py_haversine_distance (A := binary64 L) (1e308, 0) (0, 0) = nan.
Proof.
  intros laws. rewrite haversine_eq. cbn zeta.
  change (1e308 * pi64 / 180) with infinity.
  rewrite (cos_invalid L laws infinity eq_refl).
  rewrite !mul_nan_l, add_nan_r.
  change (PrimFloat.sqrt nan) with nan.
  change (PrimFloat.sqrt (1 - nan)) with nan.
  now rewrite (atan2_nan L laws nan nan eq_refl).
Qed.

Lemma coarse_libm_laws : libm_laws coarse_libm.
Proof.
  split; simpl.
  - intros x. now rewrite abs_opp, mul_opp_l.
  - reflexivity.
  - reflexivity.
  - now intros x ->.
  - now intros x ->.
  - reflexivity.
  - now intros y x ->.
  - intros y x Hy. destruct (PrimFloat.is_nan y || PrimFloat.is_nan x);
      [now left|]. rewrite Hy. right.
    destruct (y =? 0); split; reflexivity.
Qed.

(** ** The sample of glibc's values *)

Lemma sample_libm_laws : libm_laws sample_libm.
Proof.
  split; simpl.
  - intros x. now rewrite abs_opp, mul_opp_l.
  - reflexivity.
  - reflexivity.
  - intros x ->. now destruct (PrimFloat.abs x =? _)%float.
  - now intros x ->.
  - reflexivity.
  - now intros y x ->.
  - intros y x Hy. destruct (PrimFloat.is_nan y || PrimFloat.is_nan x);
      [now left|]. rewrite Hy. right.
    destruct (y =? 0)%float; split; reflexivity.
Qed.

Lemma sample_libm_values : glibc_sample sample_libm.
Proof. repeat split; reflexivity. Qed.

(** With these values the haversine term of [(-12, -180)] and [(12, 0)]
    rounds to a double above one, [1 - a] is negative, its square root is
    NaN and so is the distance. *)
Lemma haversine_sample L :
  libm_laws L -> glibc_sample L ->
  haversine_h (A := binary64 L) (-12, -180)%float (12, 0)%float
  = 0x1.0000000000001p+0%float /\
  py_haversine_distance (A := binary64 L) (-12, -180)%float (12, 0)%float
  = nan.
Proof.
  intros laws (Hs1 & Hc1 & Hc2 & Hs2).
  assert (Ha : haversine_h (A := binary64 L) (-12, -180)%float (12, 0)%float
               = 0x1.0000000000001p+0%float).
  { unfold haversine_h. cbn [add sub mul div sin cos binary64].
    change (M_PI (A := binary64 L)) with pi64.
    change (lit (Arith := binary64 L) 180 0) with 180%float.
    change (lit (Arith := binary64 L) 2 0) with 2%float.
    change ((12 - -12) * pi64 / 180 / 2)%float
      with 0x1.acee9f37bebd5p-3%float.
    change (-12 * pi64 / 180)%float with (-0x1.acee9f37bebd5p-3)%float.
    change (12 * pi64 / 180)%float with 0x1.acee9f37bebd5p-3%float.
    change ((0 - -180) * pi64 / 180 / 2)%float
      with 0x1.921fb54442d18p+0%float.
    rewrite Hs1, Hc1, Hc2, Hs2. reflexivity. }
  split; [exact Ha|].
  change (py_haversine_distance (A := binary64 L) (-12, -180)%float
            (12, 0)%float)
    with (6371000 * (2 * m_atan2 L
            (PrimFloat.sqrt (haversine_h (A := binary64 L)
                               (-12, -180)%float (12, 0)%float))
            (PrimFloat.sqrt (1 - haversine_h (A := binary64 L)
                               (-12, -180)%float (12, 0)%float))))%float.
  rewrite Ha.
  change (PrimFloat.sqrt (1 - 0x1.0000000000001p+0))%float with nan.
  rewrite (atan2_nan L laws _ nan) by apply orb_true_r.
  reflexivity.
Qed.

End HaversineFacts.


(* ================================================================== *)
(** * The sums of [py_polygon_area] in binary64 *)
(* ================================================================== *)

Module AreaFacts.

Import Binary64 Binary64Facts Cgeom CgeomFacts.

(** ** Values that differ in sign only *)










(** ** The function through its three sums *)

Section Sums.

Variable L : libm.

#[local] Open Scope float_scope.







End Sums.

(** ** Checking that a sum is free of the order *)





End AreaFacts.


(* ================================================================== *)
(** * The properties of the specification: [parse_coords] *)
(* ================================================================== *)

Module CkmlSpec.

Import LibC LibCFacts Ckml CkmlFacts.

Lemma parse_loop_more_fuel fuel fuel' p acc l :
  parse_loop fuel p acc = Some l -> (fuel <= fuel')%nat ->
  parse_loop fuel' p acc = Some l.
Proof.
  revert fuel' p acc. induction fuel as [|fuel IH]; intros fuel' p acc H Hf;
    [discriminate|].
  destruct fuel' as [|fuel']; [lia|]. simpl in *.
  destruct p as [|c p]; [assumption|].
  destruct (skip_while isspace (c :: p)) as [|d q]; [assumption|].
  destruct (parse_one (d :: q)) as [tup p']. apply IH; [assumption | lia].
Qed.

(** ** The argument conversion *)

Lemma utf8_encode_scalar s :
  forallb scalar_value s = true -> exists text, utf8_encode s = Some text.
Proof.
  induction s as [|cp s IH]; intros H; [now exists []|].
  simpl in H. apply andb_true_iff in H as [Hcp Hs].
  destruct (IH Hs) as [r Hr]. simpl. rewrite Hr. unfold utf8_char.
  rewrite Hcp. cbn [negb].
  destruct (cp <? 128); [now eexists|].
  destruct (cp <? 2048); [now eexists|].
  destruct (cp <? 65536); now eexists.
Qed.

(** The encoder at work: one to four bytes per code point. *)
Lemma utf8_examples :
  option_map (map code) (utf8_encode [0x31; 0x3C0; 0x20AC; 0x1F600])
  = Some [49; 207; 128; 226; 130; 172; 240; 159; 152; 128] /\
  utf8_encode [0xDFFF] = None.
Proof. split; reflexivity. Qed.

Lemma space_code_cases cp :
  space_code cp = true ->
  cp = 32 \/ cp = 9 \/ cp = 10 \/ cp = 11 \/ cp = 12 \/ cp = 13.
Proof. unfold space_code. lia. Qed.

Lemma utf8_encode_space s :
  forallb space_code s = true ->
  exists text, utf8_encode s = Some text /\ forallb isspace text = true.
Proof.
  induction s as [|cp s IH]; intros H; [now exists []|].
  simpl in H. apply andb_true_iff in H as [Hcp Hs].
  destruct (IH Hs) as (r & Hr & Hsp). simpl. rewrite Hr.
  exists (byte cp :: r).
  apply space_code_cases in Hcp.
  repeat (destruct Hcp as [->|Hcp]; [split; [reflexivity | exact Hsp]|]).
  subst. split; [reflexivity | exact Hsp].
Qed.

Lemma parse_coords_blank text :
  forallb isspace text = true -> parse_coords text = Some [].
Proof.
  intros Hws. unfold parse_coords. simpl.
  destruct text as [|c p]; [reflexivity|].
  unfold skip_while.
  rewrite <- (app_nil_r (c :: p)), span_all;
    [reflexivity | exact Hws | exact I].
Qed.

(** C9, as stated, fails: a [str] with a lone surrogate has no UTF-8
    encoding, [PyArg_ParseTuple] fails and [parse_coords] returns [NULL];
    the text before the surrogate does not matter. *)
Lemma parse_coords_lone_surrogate :
  scalar_value 0xD800 = false /\
  py_parse_coords [PyUnicode [0xD800]] = None /\
  py_parse_coords [PyUnicode [49; 44; 50; 0xD800]] = None.
Proof. repeat split; reflexivity. Qed.

(** White space is what [isspace] accepts in the C locale: a no-break
    space, two bytes in UTF-8, is a token, and a token without a number. *)
Lemma parse_coords_no_break_space :
  py_parse_coords [PyUnicode [0xA0]] = Some [(0, 0)%float].
Proof. reflexivity. Qed.

(** C9, amended.  [parse_coords] fails only where the conversion of its
    argument fails: for every [str] without a surrogate and for every bytes
    object a list is returned, whatever the text; the loop ends within the
    fuel [parse_coords] gives it for every buffer, more fuel changes nothing;
    and for the empty text or a text of white space only the list is
    empty. *)
Theorem parse_coords_total :
  (forall text, exists l, parse_coords text = Some l) /\
  (forall text fuel,
      (length text < fuel)%nat ->
      parse_loop fuel text [] = parse_coords text) /\
  (forall text,
      forallb isspace text = true -> parse_coords text = Some []) /\
  (forall args,
      py_parse_coords args = None <-> PyArg_ParseTuple_s args = None) /\
  (forall s,
      forallb scalar_value s = true ->
      exists l, py_parse_coords [PyUnicode s] = Some l) /\
  (forall b, exists l, py_parse_coords [PyBytes b] = Some l) /\
  (forall s,
      forallb space_code s = true ->
      py_parse_coords [PyUnicode s] = Some []).
Proof.
  assert (T : forall text, exists l, parse_coords text = Some l).
  { intros text. unfold parse_coords.
    destruct (parse_loop_total (S (length text)) text []) as [l Hl]; [lia|].
    now exists l. }
  split; [exact T|]. split; [|split; [|split; [|split; [|split]]]].
  - intros text fuel Hf. unfold parse_coords.
    destruct (parse_loop_total (S (length text)) text []) as [l Hl]; [lia|].
    rewrite Hl. eapply parse_loop_more_fuel; [exact Hl | lia].
  - exact parse_coords_blank.
  - intros args. unfold py_parse_coords.
    destruct (PyArg_ParseTuple_s args) as [text|]; [|tauto].
    destruct (T text) as [l ->]. split; discriminate.
  - intros s Hs. unfold py_parse_coords, PyArg_ParseTuple_s.
    destruct (utf8_encode_scalar s Hs) as [text ->]. apply T.
  - intros b. unfold py_parse_coords, PyArg_ParseTuple_s. apply T.
  - intros s Hs. unfold py_parse_coords, PyArg_ParseTuple_s.
    destruct (utf8_encode_space s Hs) as (text & -> & Hsp).
    now apply parse_coords_blank.
Qed.

Lemma parse_coords_total_witness :
  (exists l, py_parse_coords [PyUnicode [49; 44; 50; 960]] = Some l) /\
  py_parse_coords [PyUnicode [32; 10]] = Some [].
Proof.
  split.
  - exact (proj1 (proj2 (proj2 (proj2 (proj2 parse_coords_total))))
             [49; 44; 50; 960] eq_refl).
  - exact (proj2 (proj2 (proj2 (proj2 (proj2 (proj2 parse_coords_total)))))
             [32; 10] eq_refl).
Defined.

(** C2, as stated, fails: in ["1 2"] and in ["1, 2"] there are two tokens,
    and one tuple is returned.  [strtod] skips the white space behind the
    first token and reads the latitude from the second. *)
Lemma parse_coords_merges_tokens :
  length (tokens (str "1 2")) = 2%nat /\
  parse_coords (str "1 2") = Some [(2, 1)%float] /\
  length (tokens (str "1, 2")) = 2%nat /\
  parse_coords (str "1, 2") = Some [(2, 1)%float].
Proof. repeat split; reflexivity. Qed.

(** C2, amended.  For every input [parse_coords] returns at most one
    tuple per token; and when every token of the input is complete (no token
    ends right after its first number, after the comma behind the first
    number or after the comma behind the second), it returns exactly one
    tuple per token, in the order of the tokens: the tuple the loop body
    makes of that token alone. *)
Theorem parse_coords_one_per_token :
  (forall text,
      exists l,
        parse_coords text = Some l /\
        (length l <= length (tokens text))%nat) /\
  (forall text,
      forallb token_complete (tokens text) = true ->
      exists l,
        parse_coords text = Some l /\
        length l = length (tokens text) /\
        l = map token_coord (tokens text)).
Proof.
  split.
  - intros text. unfold parse_coords.
    destruct (parse_loop_at_most (S (length text)) text []) as (l & Hl & Hn);
      [lia|].
    now exists l.
  - intros text H. exists (map token_coord (tokens text)).
    split; [|split; [apply length_map | reflexivity]].
    unfold parse_coords. rewrite parse_loop_tokens by (assumption || lia).
    reflexivity.
Qed.

Lemma parse_coords_one_per_token_witness :
  exists l,
    parse_coords (str "1,2,3 4,5,6") = Some l /\
    length l = length (tokens (str "1,2,3 4,5,6")) /\
    l = map token_coord (tokens (str "1,2,3 4,5,6")).
Proof.
  exact (proj2 parse_coords_one_per_token (str "1,2,3 4,5,6") eq_refl).
Defined.

(** C3, as stated, fails: in ["1 2,3"] the token ["2,3"] has the form
    [lon,lat] and stands for [(3, 2)], but the pass that starts at the token
    ["1"] reads it as the latitude and the altitude of that token; the only
    tuple returned is [(2, 1)]. *)
Lemma parse_coords_token_not_emitted :
  In (str "2,3") (tokens (str "1 2,3")) /\
  kml_token (str "2,3") (3, 2)%float /\
  parse_coords (str "1 2,3") = Some [(2, 1)%float] /\
  ~ In (3, 2)%float [(2, 1)%float].
Proof.
  split; [right; now left|]. split; [|split; [reflexivity|]].
  - apply (kml_lon_lat (str "2") (str "3") 2 3); repeat split; discriminate.
  - intros [H|[]].
    apply (f_equal (fun c => Prim2SF (fst c))) in H.
    vm_compute in H. discriminate H.
Qed.

(** C3, amended.  A token of the form [lon,lat] or [lon,lat,alt] that
    follows complete tokens only (none of them ends right after its first
    number or right after a comma) makes the tuple with the latitude first
    and the longitude second, the altitude being converted and dropped: that
    tuple stands at the token's place in the output; for an input whose
    tokens all have the form, the output is the list of their tuples; and
    the two examples of the specification. *)
Theorem parse_coords_lat_lon :
  (forall text ts t rest xy,
      tokens text = ts ++ t :: rest ->
      forallb token_complete ts = true ->
      kml_token t xy ->
      exists l, parse_coords text = Some (map token_coord ts ++ xy :: l)) /\
  (forall text coords,
      Forall2 kml_token (tokens text) coords ->
      parse_coords text = Some coords) /\
  parse_coords (str "1,2,3 4,5,6") = Some [(2, 1); (5, 4)]%float /\
  parse_coords (str "-122.1,37.7 -122.2,37.8")
  = Some [(37.7, -122.1); (37.8, -122.2)]%float.
Proof.
  split; [|split; [|split; reflexivity]].
  - intros text ts t rest xy Ht Hall Hk.
    destruct (kml_token_parse t xy Hk) as [Hc Hxy].
    destruct (parse_loop_prefix (S (length text)) text [] (ts ++ [t]) rest)
      as [l Hl].
    + lia.
    + now rewrite <- app_assoc.
    + rewrite forallb_app, Hall. simpl. now rewrite Hc.
    + exists l. unfold parse_coords. rewrite Hl, map_app. simpl.
      now rewrite Hxy, <- app_assoc.
  - intros text coords H. apply kml_tokens_parse in H as [Hc <-].
    unfold parse_coords. rewrite parse_loop_tokens by (assumption || lia).
    reflexivity.
Qed.

Lemma numeral_examples :
  numeral (str "1") 1%float /\ numeral (str "2.5") 2.5%float /\
  numeral (str "-3e1") (-30)%float.
Proof. repeat split; discriminate. Qed.

Lemma parse_coords_lat_lon_witness :
  parse_coords (str "1,2.5 2.5,1,-3e1") = Some [(2.5, 1); (1, 2.5)]%float.
Proof.
  apply (proj1 (proj2 parse_coords_lat_lon)). repeat constructor.
  - exact (kml_lon_lat (str "1") (str "2.5") 1 2.5
             (proj1 numeral_examples) (proj1 (proj2 numeral_examples))).
  - exact (kml_lon_lat_alt (str "2.5") (str "1") (str "-3e1") 2.5 1 (-30)
             (proj1 (proj2 numeral_examples)) (proj1 numeral_examples)
             (proj2 (proj2 numeral_examples))).
Defined.

End CkmlSpec.

(* ================================================================== *)
(** * The properties of the specification: [cgeom] *)
(* ================================================================== *)

Module CgeomSpec.

Import Binary64 Binary64Facts Cgeom CgeomFacts HaversineFacts AreaFacts.

(** C1.  For every ring of three or more coordinate tuples,
    [py_polygon_area] returns the value of the specification's formula:
    centroid by arithmetic means, projection, absolute shoelace sum over the
    closed ring halved, times [111320.0] twice.  It holds in every
    arithmetic the code is read in, binary64 first. *)
Theorem polygon_area_shoelace {F : Type} {A : Arith F}
    (ring : list (F * F)) :
  (3 <= length ring)%nat ->
  py_polygon_area (map PyCoord ring) = Some (shoelace_area ring).
Proof. intros H. now apply polygon_area_coords. Qed.

Lemma polygon_area_shoelace_witness :
  (3 <= length unit_square)%nat /\
  py_polygon_area (A := binary64 coarse_libm) (map PyCoord unit_square)
  = Some (shoelace_area (A := binary64 coarse_libm) unit_square).
Proof.
  split; [simpl; lia|].
  apply (polygon_area_shoelace (A := binary64 coarse_libm)). simpl; lia.
Defined.

(** C4.  For every sequence of fewer than three items, tuples or not,
    [py_polygon_area] returns [0.0] and [py_point_in_polygon] returns false
    for every point; no error is raised. *)
Theorem degenerate_ring (L : libm) (seq : list (pyobj float)) :
  (length seq < 3)%nat ->
  py_polygon_area (A := binary64 L) seq = Some 0%float /\
  forall pt, py_point_in_polygon (A := binary64 L) pt seq = Some false.
Proof.
  intros H. apply Nat.ltb_lt in H. split.
  - unfold py_polygon_area. now rewrite H.
  - intros [lat lon]. unfold py_point_in_polygon. now rewrite H.
Qed.

Lemma degenerate_ring_witness :
  py_polygon_area (A := binary64 coarse_libm) [PyOther; PyCoord (1, 2)%float]
  = Some 0%float /\
  forall pt,
    py_point_in_polygon (A := binary64 coarse_libm) pt
      [PyOther; PyCoord (1, 2)%float] = Some false.
Proof.
  apply (degenerate_ring coarse_libm [PyOther; PyCoord (1, 2)%float]).
  simpl; lia.
Defined.

(** C6.  On the unit square, [(0.5, 0.5)] is inside and [(2, 2)] is
    outside; and on every ring of three or more tuples the result is the
    even-odd rule over the closed ring's edges with the crossing latitude
    [(lat2 - lat1) * (lon - lon1) / (lon2 - lon1 + 1e-12) + lat1]. *)
Theorem point_in_polygon_even_odd (L : libm) :
  py_point_in_polygon (A := binary64 L) (0.5, 0.5)%float
    (map PyCoord unit_square) = Some true /\
  py_point_in_polygon (A := binary64 L) (2, 2)%float
    (map PyCoord unit_square) = Some false /\
  (forall pt ring,
      (3 <= length ring)%nat ->
      py_point_in_polygon (A := binary64 L) pt (map PyCoord ring)
      = Some (even_odd (A := binary64 L) pt ring)) /\
  (forall lat lon lat1 lon1 lat2 lon2,
      crossing (A := binary64 L) (lat, lon) ((lat1, lon1), (lat2, lon2))
      = if xorb (lon <? lon1)%float (lon <? lon2)%float
        then (lat <? (lat2 - lat1) * (lon - lon1) / (lon2 - lon1 + 1e-12)
                     + lat1)%float
        else false).
Proof.
  split; [|split; [|split]].
  - vm_compute. reflexivity.
  - vm_compute. reflexivity.
  - intros pt ring H. now apply point_in_polygon_coords.
  - reflexivity.
Qed.

(** C10.  [py_point_in_polygon] returns the same result when the ring is
    started at another vertex. *)
Theorem point_in_polygon_rotate {F : Type} {A : Arith F}
    (pt : F * F) (k : nat) (ring : list (F * F)) :
  py_point_in_polygon pt (map PyCoord (rotate k ring))
  = py_point_in_polygon pt (map PyCoord ring).
Proof.
  destruct (le_lt_dec 3 (length ring)) as [H|H].
  - rewrite !point_in_polygon_coords by (rewrite ?length_rotate; assumption).
    now rewrite even_odd_rotate.
  - destruct pt as [lat lon]. unfold py_point_in_polygon.
    rewrite !length_map, length_rotate.
    now replace (length ring <? 3)%nat with true
      by (symmetry; now apply Nat.ltb_lt).
Qed.

(** C5, as stated, fails: a finite latitude so large that its value in
    radians overflows gives NaN for the distance of the point to itself. *)
Lemma haversine_self_not_zero :
  exists a : float * float,
    PrimFloat.is_finite (fst a) = true /\
    PrimFloat.is_finite (snd a) = true /\
    forall L, libm_laws L ->
      py_haversine_distance (A := binary64 L) a a = nan /\
      py_haversine_distance (A := binary64 L) a a <> 0%float.
Proof.
  exists (1e308, 0)%float. split; [reflexivity | split; [reflexivity|]].
  intros L laws. rewrite (haversine_self_nan L laws).
  split; [reflexivity|].
  intros H. apply (f_equal Prim2SF) in H. discriminate H.
Qed.

(** C5, amended.  With a libm that satisfies the laws (an odd [sin]
    above all), [py_haversine_distance] returns the same double for [(a, b)]
    and [(b, a)], whatever the coordinates; and the distance of a point to
    itself is [0.0] whenever its longitude is finite and its latitude in
    radians, [lat * M_PI / 180.0], is finite. *)
Theorem haversine_symmetric (L : libm) :
  libm_laws L ->
  (forall a b,
      py_haversine_distance (A := binary64 L) a b
      = py_haversine_distance (A := binary64 L) b a) /\
  (forall lat lon,
      PrimFloat.is_finite lon = true ->
      PrimFloat.is_finite
        (lat * M_PI (A := binary64 L) / lit (Arith := binary64 L) 180 0)%float
      = true ->
      py_haversine_distance (A := binary64 L) (lat, lon) (lat, lon)
      = 0%float).
Proof.
  intros laws. split.
  - intros a b. now apply haversine_sym.
  - intros lat lon. now apply haversine_self.
Qed.

Lemma haversine_symmetric_witness :
  py_haversine_distance (A := binary64 coarse_libm)
    (37.7, -122.1)%float (37.7, -122.1)%float = 0%float.
Proof.
  exact (proj2 (haversine_symmetric coarse_libm coarse_libm_laws)
           37.7%float (-122.1)%float eq_refl eq_refl).
Defined.

(** C7.  The defect: for the points [(-12, -180)] and [(12, 0)], both
    within the range of latitudes and longitudes, the haversine term
    [a] rounds to [1.0000000000000002] with the values glibc returns for
    [sin] and [cos]; [1 - a] is negative, line 17 takes its square root
    without clamping it, and the distance is NaN where the specification
    promises a number that is not negative. *)
Theorem haversine_in_range_nan (L : libm) :
  libm_laws L -> glibc_sample L ->
  haversine_h (A := binary64 L) (-12, -180)%float (12, 0)%float
  = 0x1.0000000000001p+0%float /\
  (1 - 0x1.0000000000001p+0 <? 0)%float = true /\
  py_haversine_distance (A := binary64 L) (-12, -180)%float (12, 0)%float
  = nan.
Proof.
  intros laws Hv. destruct (haversine_sample L laws Hv) as [Ha Hd].
  split; [exact Ha|]. split; [reflexivity | exact Hd].
Qed.

Lemma haversine_in_range_nan_witness :
  py_haversine_distance (A := binary64 sample_libm)
    (-12, -180)%float (12, 0)%float = nan.
Proof.
  exact (proj2 (proj2 (haversine_in_range_nan sample_libm sample_libm_laws
                         sample_libm_values))).
Defined.

(** Besides, and by design (no input is checked): finite inputs whose value
    in radians overflows give NaN. *)
Lemma haversine_finite_input_nan :
  exists p1 p2 : float * float,
    PrimFloat.is_finite (fst p1) && PrimFloat.is_finite (snd p1) &&
    PrimFloat.is_finite (fst p2) && PrimFloat.is_finite (snd p2) = true /\
    forall L, libm_laws L ->
      PrimFloat.is_nan (py_haversine_distance (A := binary64 L) p1 p2)
      = true.
Proof.
  exists (1e308, 0)%float, (0, 0)%float. split; [reflexivity|].
  intros L laws. now rewrite (haversine_overflow_nan L laws).
Qed.


(** The orders can differ by more than a rounding: where the sum of the
    longitudes overflows in one order and not in another, the area is NaN
    for one and finite for the other. *)
Lemma polygon_area_order_overflow :
  exists ring : list (float * float),
    forall L, libm_laws L ->
      py_polygon_area (A := binary64 L) (map PyCoord ring) = Some nan /\
      py_polygon_area (A := binary64 L) (map PyCoord (rotate 1 ring))
      = Some 0x1.13292c91fce4p+60%float.
Proof.
  exists [(0, 1e308); (1e-300, 1e308); (-1e-300, -1e308)]%float.
  intros [sn cs at2] laws.
  pose proof (cos_zero _ laws) as Hc. simpl in Hc.
  split; vm_compute; rewrite Hc; reflexivity.
Qed.



End CgeomSpec.


(* ================================================================== *)
(** * [parse_coords]: white space, composition, unreadable tokens *)
(* ================================================================== *)

Module CkmlProps.

Import LibC LibCFacts Ckml CkmlFacts.

(** ** The loop, one pass at a time *)

Lemma parse_loop_pass fuel p acc :
  parse_loop (S fuel) p acc =
  match skip_while isspace p with
  | [] => Some acc
  | c :: q => parse_loop fuel (snd (parse_one (c :: q)))
                         (acc ++ [fst (parse_one (c :: q))])
  end.
Proof.
  simpl. destruct p as [|c0 p0]; [reflexivity|].
  destruct (skip_while isspace (c0 :: p0)) as [|c q]; [reflexivity|].
  now destruct (parse_one (c :: q)).
Qed.

Lemma pass_shorter p c q :
  skip_while isspace p = c :: q ->
  (length (snd (parse_one (c :: q))) < length p)%nat.
Proof.
  intros E. pose proof (suffix_length _ _ (skip_while_suffix isspace p)) as Sw.
  rewrite E in Sw.
  pose proof (parse_one_progress c q (skip_space_head _ _ _ E)). lia.
Qed.

Lemma parse_loop_fuel f1 f2 p acc :
  (length p < f1)%nat -> (length p < f2)%nat ->
  parse_loop f1 p acc = parse_loop f2 p acc.
Proof.
  revert f2 p acc. induction f1 as [|f1 IH]; intros f2 p acc H1 H2; [lia|].
  destruct f2 as [|f2]; [lia|]. rewrite !parse_loop_pass.
  destruct (skip_while isspace p) as [|c q] eqn:E; [reflexivity|].
  pose proof (pass_shorter p c q E). apply IH; lia.
Qed.

Lemma parse_loop_acc fuel p acc :
  parse_loop fuel p acc = option_map (app acc) (parse_loop fuel p []).
Proof.
  revert p acc. induction fuel as [|fuel IH]; intros p acc; [reflexivity|].
  rewrite !parse_loop_pass.
  destruct (skip_while isspace p) as [|c q];
    [simpl; now rewrite app_nil_r|].
  rewrite IH, (IH _ ([] ++ _)).
  destruct (parse_loop fuel _ []) as [l|]; simpl; [|reflexivity].
  now rewrite <- app_assoc.
Qed.

(** ** White space before a token *)

Lemma skip_while_app P a b :
  forallb P a = true -> skip_while P (a ++ b) = skip_while P b.
Proof.
  unfold skip_while. induction a as [|x a IH]; simpl; [reflexivity|].
  intros [-> H]%andb_true_iff. specialize (IH H).
  now destruct (span P (a ++ b)).
Qed.

Lemma skip_while_nil P a : skip_while P a = [] -> forallb P a = true.
Proof.
  unfold skip_while. intros E. pose proof (span_app P a) as H.
  rewrite E, app_nil_r in H. rewrite <- H. apply span_fst_all.
Qed.

Lemma skip_while_split P a :
  exists ws, a = ws ++ skip_while P a /\ forallb P ws = true.
Proof.
  exists (fst (span P a)). split;
    [symmetry; apply span_app | apply span_fst_all].
Qed.

Lemma tokens_nil p : tokens p = [] -> skip_while isspace p = [].
Proof.
  rewrite <- tokens_skip.
  destruct (skip_while isspace p) as [|c q] eqn:E; [reflexivity|].
  destruct (token_split c q (skip_space_head _ _ _ E))
    as (t & r & -> & Ht & Hn & Hr).
  now rewrite tokens_token by assumption.
Qed.

Lemma tokens_cons p t ts :
  tokens p = t :: ts ->
  exists r,
    skip_while isspace p = t ++ r /\ t <> [] /\
    forallb nonspace t = true /\ boundary r /\ tokens r = ts.
Proof.
  rewrite <- tokens_skip.
  destruct (skip_while isspace p) as [|c q] eqn:E; [discriminate|].
  destruct (token_split c q (skip_space_head _ _ _ E))
    as (t' & r & -> & Ht & Hn & Hr).
  rewrite tokens_token by assumption. intros [= -> <-].
  now exists r.
Qed.

Lemma boundary_app r b : boundary r -> boundary b -> boundary (r ++ b).
Proof.
  intros [->|(c & r' & -> & H)] Hb; [exact Hb|].
  right. now exists c, (r' ++ b).
Qed.

(** ** [strtod] from a position inside a token or between tokens *)

Lemma subject_in_token t r :
  boundary r -> subject (t ++ r) = option_map (extend r) (subject t).
Proof.
  intros [->|(c & r' & -> & H)].
  - rewrite app_nil_r. destruct (subject t) as [[v q]|]; simpl; [|reflexivity].
    unfold extend; simpl. now rewrite app_nil_r.
  - apply subject_stop. unfold terminator. now rewrite H, orb_true_r.
Qed.

Lemma skip_space_token t r :
  t <> [] -> forallb nonspace t = true ->
  skip_while isspace (t ++ r) = t ++ r.
Proof.
  intros Ht Hn. destruct t as [|x t]; [congruence|].
  simpl in Hn |- *. apply andb_true_iff in Hn as [Hx _].
  unfold nonspace in Hx. unfold skip_while. simpl.
  now destruct (isspace x).
Qed.

(** From white space [strtod] reads the next token, or converts nothing. *)
Lemma strtod_between ws t r :
  forallb isspace ws = true -> t <> [] -> forallb nonspace t = true ->
  boundary r ->
  strtod (ws ++ t ++ r) =
  match subject t with
  | Some (v, q) => (v, q ++ r)
  | None => (0%float, ws ++ t ++ r)
  end.
Proof.
  intros Hws Ht Hn Hr. unfold strtod.
  fold (skip_while isspace (ws ++ t ++ r)).
  rewrite skip_while_app, skip_space_token, subject_in_token by assumption.
  now destruct (subject t) as [[v q]|].
Qed.

Lemma strtod_blank r : forallb isspace r = true -> strtod r = (0%float, r).
Proof.
  intros H. unfold strtod. rewrite <- (app_nil_r r) at 1.
  rewrite span_all by (assumption || exact I). reflexivity.
Qed.

Lemma boundary_blank r : forallb isspace r = true -> boundary r.
Proof.
  destruct r as [|c r]; [now left|]. simpl. intros [H _]%andb_true_iff.
  right. now exists c, r.
Qed.

Lemma aligned_rest r r' :
  boundary r -> boundary r' -> tokens r = tokens r' -> aligned r r'.
Proof. intros. now exists [], r, r'. Qed.

Lemma aligned_strtod p p' :
  aligned p p' ->
  fst (strtod p) = fst (strtod p') /\
  aligned (snd (strtod p)) (snd (strtod p')).
Proof.
  intros (t & r & r' & -> & -> & Hn & Hr & Hr' & Ht).
  destruct t as [|x t].
  - simpl app. destruct (tokens r) as [|t1 ts] eqn:E.
    + symmetry in Ht.
      pose proof (skip_while_nil _ _ (tokens_nil _ E)) as B.
      pose proof (skip_while_nil _ _ (tokens_nil _ Ht)) as B'.
      rewrite !strtod_blank by assumption. split; [reflexivity|].
      apply aligned_rest; cbn [snd]; congruence.
    + symmetry in Ht.
      destruct (tokens_cons _ _ _ E) as (r2 & E2 & Ht1 & Hn1 & Hr2 & Hts).
      destruct (tokens_cons _ _ _ Ht) as (r2' & E2' & _ & _ & Hr2' & Hts').
      destruct (skip_while_split isspace r) as (ws & Er & Hws).
      destruct (skip_while_split isspace r') as (ws' & Er' & Hws').
      rewrite E2 in Er. rewrite E2' in Er'.
      rewrite Er at 1 2. rewrite Er' at 1 2.
      rewrite !strtod_between by assumption.
      destruct (subject t1) as [[v q]|] eqn:Es; cbn [fst snd].
      * split; [reflexivity|]. exists q, r2, r2'.
        repeat split; try assumption; [|congruence].
        eapply nonspace_suffix; [eapply subject_suffix, Es | assumption].
      * split; [reflexivity|]. rewrite <- Er, <- Er'.
        apply aligned_rest; congruence.
  - destruct (strtod_in_token (x :: t) r) as [-> Hq];
      [discriminate | assumption | assumption |].
    destruct (strtod_in_token (x :: t) r') as [-> _];
      [discriminate | assumption | assumption |].
    cbn [fst snd]. split; [reflexivity|].
    now exists (snd (strtod (x :: t))), r, r'.
Qed.

Lemma aligned_after_comma p p' :
  aligned p p' -> aligned (after_comma p) (after_comma p').
Proof.
  intros (t & r & r' & -> & -> & Hn & Hr & Hr' & Ht).
  unfold after_comma. rewrite !at_comma_in_token by assumption.
  destruct (at_comma t) as [t'|] eqn:C; cbn [option_map].
  - exists t', r, r'. repeat split; try assumption.
    eapply nonspace_suffix; [eapply at_comma_suffix, C | assumption].
  - now exists t, r, r'.
Qed.

Lemma aligned_after_altitude p p' :
  aligned p p' -> aligned (after_altitude p) (after_altitude p').
Proof.
  intros (t & r & r' & -> & -> & Hn & Hr & Hr' & Ht).
  unfold after_altitude. rewrite !at_comma_in_token by assumption.
  destruct (at_comma t) as [t'|] eqn:C; cbn [option_map].
  - apply aligned_strtod. exists t', r, r'. repeat split; try assumption.
    eapply nonspace_suffix; [eapply at_comma_suffix, C | assumption].
  - now exists t, r, r'.
Qed.

Lemma aligned_parse_one p p' :
  aligned p p' ->
  fst (parse_one p) = fst (parse_one p') /\
  tokens (snd (parse_one p)) = tokens (snd (parse_one p')).
Proof.
  intros H. rewrite !parse_one_eq. cbn [fst snd].
  destruct (aligned_strtod _ _ H) as [E1 H1].
  apply aligned_after_comma in H1.
  destruct (aligned_strtod _ _ H1) as [E2 H2].
  apply aligned_after_altitude in H2.
  destruct H2 as (t & r & r' & -> & -> & Hn & Hr & Hr' & Ht).
  rewrite !skip_token_rest by assumption.
  split; [now rewrite E1, E2 | exact Ht].
Qed.

Lemma parse_loop_same_tokens f f' p p' acc :
  (length p < f)%nat -> (length p' < f')%nat -> tokens p = tokens p' ->
  parse_loop f p acc = parse_loop f' p' acc.
Proof.
  revert f' p p' acc. induction f as [|f IH]; intros f' p p' acc Hf Hf' Ht;
    [lia|].
  destruct f' as [|f']; [lia|]. rewrite !parse_loop_pass.
  destruct (tokens p) as [|t ts] eqn:E; symmetry in Ht.
  - now rewrite (tokens_nil _ E), (tokens_nil _ Ht).
  - destruct (tokens_cons _ _ _ E) as (r & Es & Ht1 & Hn & Hr & Hts).
    destruct (tokens_cons _ _ _ Ht) as (r' & Es' & _ & _ & Hr' & Hts').
    assert (Ha : aligned (skip_while isspace p) (skip_while isspace p'))
      by (rewrite Es, Es'; exists t, r, r'; repeat split;
          try assumption; congruence).
    destruct (skip_while isspace p) as [|c q] eqn:Ep;
      [destruct t; [congruence | discriminate]|].
    destruct (skip_while isspace p') as [|c' q'] eqn:Ep';
      [destruct t; [congruence | discriminate]|].
    destruct (aligned_parse_one _ _ Ha) as [-> Hrest].
    pose proof (pass_shorter p c q Ep).
    pose proof (pass_shorter p' c' q' Ep').
    apply IH; [lia | lia | assumption].
Qed.

(** ** Composition *)

Lemma parse_loop_app fuel a b acc :
  (length (a ++ b) < fuel)%nat -> boundary b ->
  forallb token_complete (tokens a) = true ->
  parse_loop fuel (a ++ b) acc
  = parse_loop fuel b (acc ++ map token_coord (tokens a)).
Proof.
  revert a acc. induction fuel as [|fuel IH]; intros a acc Hf Hb Hall; [lia|].
  destruct (skip_while_split isspace a) as (ws & Ea & Hws).
  destruct (skip_while isspace a) as [|c a1] eqn:E.
  - rewrite app_nil_r in Ea. subst ws.
    rewrite <- tokens_skip, E. simpl map. rewrite app_nil_r.
    rewrite !parse_loop_pass. now rewrite skip_while_app.
  - pose proof (skip_space_head _ _ _ E) as Hc.
    destruct (token_split c a1 Hc) as (t & r & Heq & Ht & Hn & Hr).
    rewrite <- tokens_skip, E, Heq, tokens_token in Hall |- * by assumption.
    simpl in Hall. apply andb_true_iff in Hall as [Hct Hall].
    rewrite parse_loop_pass.
    assert (Es : skip_while isspace (a ++ b) = t ++ (r ++ b)).
    { rewrite Ea, <- app_assoc, skip_while_app by assumption.
      rewrite Heq, <- app_assoc. unfold skip_while.
      destruct t as [|x t]; [congruence|]. simpl in Hn |- *.
      apply andb_true_iff in Hn as [Hx _]. unfold nonspace in Hx.
      now destruct (isspace x). }
    rewrite Es. destruct (t ++ r ++ b) as [|x y] eqn:Et;
      [destruct t; [congruence | discriminate]|].
    rewrite <- Et.
    rewrite parse_one_token by (try assumption; now apply boundary_app).
    cbn [fst snd].
    assert (Hl : (length (r ++ b) < fuel)%nat).
    { rewrite Ea, Heq, !length_app in Hf. rewrite length_app.
      destruct t; [congruence|]. simpl in Hf. lia. }
    rewrite IH by assumption.
    rewrite <- app_assoc. cbn [app map].
    change (fst (parse_one t)) with (token_coord t).
    apply parse_loop_fuel; rewrite length_app in Hl; lia.
Qed.

(** ** A last token with one number *)

Lemma at_comma_boundary r : boundary r -> at_comma r = None.
Proof. intros Hr. now rewrite <- (app_nil_l r), at_comma_in_token. Qed.

Lemma parse_one_lone a v r :
  a <> [] -> forallb nonspace a = true -> strtod a = (v, []) ->
  forallb isspace r = true ->
  parse_one (a ++ r) = ((0%float, v), r).
Proof.
  intros Ha Hn Hv Hr. pose proof (boundary_blank r Hr) as Hb.
  rewrite parse_one_eq.
  destruct (strtod_in_token a r Ha Hn Hb) as [-> _]. rewrite Hv.
  cbn [fst snd app]. unfold after_comma, after_altitude.
  rewrite (at_comma_boundary r Hb), (strtod_blank r Hr). cbn [fst snd].
  rewrite (at_comma_boundary r Hb).
  now rewrite <- (app_nil_l r) at 1; rewrite skip_token_rest.
Qed.

Lemma parse_loop_last fuel p acc ts a v :
  (length p < fuel)%nat -> tokens p = ts ++ [a] ->
  forallb token_complete ts = true -> strtod a = (v, []) ->
  parse_loop fuel p acc = Some (acc ++ map token_coord ts ++ [(0%float, v)]).
Proof.
  revert p acc ts. induction fuel as [|fuel IH]; intros p acc ts Hf Ht Hall Hv;
    [lia|].
  rewrite parse_loop_pass. destruct ts as [|t ts]; simpl app in Ht.
  - destruct (tokens_cons _ _ _ Ht) as (r & Es & Ha & Hn & Hr & Hts).
    pose proof (skip_while_nil _ _ (tokens_nil _ Hts)) as Hblank.
    destruct (skip_while isspace p) as [|c q] eqn:Ep;
      [destruct a; [congruence | discriminate]|].
    pose proof (pass_shorter p c q Ep) as Hl.
    rewrite Es, (parse_one_lone a v r) in * by assumption. cbn [fst snd] in *.
    destruct fuel as [|fuel]; [lia|].
    rewrite parse_loop_pass, (tokens_nil _ Hts). reflexivity.
  - destruct (tokens_cons _ _ _ Ht) as (r & Es & Ht1 & Hn & Hr & Hts).
    simpl in Hall. apply andb_true_iff in Hall as [Hc Hall].
    destruct (skip_while isspace p) as [|c q] eqn:Ep;
      [destruct t; [congruence | discriminate]|].
    pose proof (pass_shorter p c q Ep) as Hl.
    rewrite Es, parse_one_token in * by assumption. cbn [fst snd] in *.
    rewrite (IH r _ ts) by (assumption || lia).
    cbn [map app]. now rewrite <- app_assoc.
Qed.

(** ** Never more than three tokens in one pass *)

(** Where [strtod] stops: in the token it starts in, or, started between
    tokens, within the next token. *)
Lemma strtod_reach t r :
  forallb nonspace t = true -> boundary r ->
  exists t' r',
    snd (strtod (t ++ r)) = t' ++ r' /\ forallb nonspace t' = true /\
    boundary r' /\
    (length (tokens r) <= length (tokens r') + 1)%nat /\
    (t <> [] -> r' = r).
Proof.
  intros Hn Hr. destruct t as [|x t].
  - simpl app. destruct (tokens r) as [|t1 ts] eqn:E.
    + exists [], r. rewrite strtod_blank
        by now apply skip_while_nil, tokens_nil. repeat split; try assumption; try (simpl; lia); try congruence.
    + destruct (tokens_cons _ _ _ E) as (r2 & E2 & Ht1 & Hn1 & Hr2 & Hts).
      destruct (skip_while_split isspace r) as (ws & Er & Hws).
      rewrite E2 in Er.
      pose proof (strtod_between ws t1 r2 Hws Ht1 Hn1 Hr2) as Hst.
      rewrite <- Er in Hst.
      destruct (subject t1) as [[v q]|] eqn:Es.
      * exists q, r2. rewrite Hst. cbn [snd]. repeat split; try assumption.
        -- eapply nonspace_suffix; [eapply subject_suffix, Es | assumption].
        -- rewrite Hts. simpl. lia.
        -- congruence.
      * exists [], r. rewrite Hst, E. cbn [snd].
        repeat split; try assumption; try (simpl; lia); try congruence.
  - destruct (strtod_in_token (x :: t) r) as [-> Hq];
      [discriminate | assumption | assumption |].
    exists (snd (strtod (x :: t))), r. cbn [snd].
    repeat split; try assumption; lia.
Qed.

Lemma parse_one_reach t r :
  t <> [] -> forallb nonspace t = true -> boundary r ->
  (length (tokens r) <= length (tokens (snd (parse_one (t ++ r)))) + 2)%nat.
Proof.
  intros Ht Hn Hr. rewrite parse_one_eq. cbn [snd].
  destruct (strtod_reach t r Hn Hr) as (t1 & r1 & -> & Hn1 & _ & _ & E).
  rewrite (E Ht). clear E r1.
  assert (exists t2, after_comma (t1 ++ r) = t2 ++ r /\
                     forallb nonspace t2 = true) as (t2 & -> & Hn2).
  { unfold after_comma. rewrite at_comma_in_token by assumption.
    destruct (at_comma t1) as [t'|] eqn:C; cbn [option_map].
    - exists t'. split; [reflexivity|].
      eapply nonspace_suffix; [eapply at_comma_suffix, C | assumption].
    - now exists t1. }
  destruct (strtod_reach t2 r Hn2 Hr) as (t3 & r3 & -> & Hn3 & Hr3 & L3 & _).
  assert (exists t4 r4, after_altitude (t3 ++ r3) = t4 ++ r4 /\
            forallb nonspace t4 = true /\ boundary r4 /\
            (length (tokens r3) <= length (tokens r4) + 1)%nat)
    as (t4 & r4 & -> & Hn4 & Hr4 & L4).
  { unfold after_altitude. rewrite at_comma_in_token by assumption.
    destruct (at_comma t3) as [t'|] eqn:C; cbn [option_map].
    - assert (Hn' : forallb nonspace t' = true)
        by (eapply nonspace_suffix; [eapply at_comma_suffix, C | assumption]).
      destruct (strtod_reach t' r3 Hn' Hr3) as (t4 & r4 & E & ? & ? & ? & _).
      now exists t4, r4.
    - exists t3, r3. repeat split; try assumption. lia. }
  rewrite skip_token_rest by assumption. lia.
Qed.

Lemma parse_loop_at_least fuel p acc :
  (length p < fuel)%nat ->
  exists l,
    parse_loop fuel p acc = Some (acc ++ l) /\
    (length (tokens p) <= 3 * length l)%nat.
Proof.
  revert p acc. induction fuel as [|fuel IH]; intros p acc Hf; [lia|].
  rewrite parse_loop_pass.
  destruct (tokens p) as [|t ts] eqn:E.
  - rewrite (tokens_nil _ E). exists []. rewrite app_nil_r.
    split; [reflexivity | simpl; lia].
  - destruct (tokens_cons _ _ _ E) as (r & Es & Ht & Hn & Hr & Hts).
    destruct (skip_while isspace p) as [|c q] eqn:Ep;
      [destruct t; [congruence | discriminate]|].
    pose proof (pass_shorter p c q Ep) as Hl.
    pose proof (parse_one_reach t r Ht Hn Hr) as Hreach.
    rewrite <- Es in Hreach.
    destruct (IH (snd (parse_one (c :: q)))
                 (acc ++ [fst (parse_one (c :: q))])) as (l & -> & Hlen);
      [lia|].
    exists (fst (parse_one (c :: q)) :: l).
    split; [now rewrite <- app_assoc|].
    rewrite <- Hts. simpl length. lia.
Qed.

(** ** The properties *)

(** X1.  The list [parse_coords] returns depends on the tokens of the text
    only: how much white space stands before, between and behind the tokens,
    and of which kind (blank, tab, line feed, ...), changes nothing. *)
Theorem parse_coords_same_tokens (a b : text) :
  tokens a = tokens b -> parse_coords a = parse_coords b.
Proof.
  intros H. unfold parse_coords. apply parse_loop_same_tokens; [lia | lia|].
  exact H.
Qed.

Lemma parse_coords_same_tokens_witness :
  parse_coords (str "1,2 3,4") =
  parse_coords ("009" :: str "1,2" ++ "010" :: " " :: str "3,4 ")%char.
Proof. exact (parse_coords_same_tokens _ _ eq_refl). Defined.

(** X2.  Parsing composes: when every token of [a] is complete and [b] is
    empty or starts with white space, the list of [a ++ b] is the list of
    [a] followed by the list of [b]. *)
Theorem parse_coords_app (a b : text) :
  forallb token_complete (tokens a) = true -> boundary b ->
  exists la lb,
    parse_coords a = Some la /\ parse_coords b = Some lb /\
    parse_coords (a ++ b) = Some (la ++ lb).
Proof.
  intros Hall Hb. unfold parse_coords.
  destruct (parse_loop_total (S (length b)) b []) as [lb Hlb]; [lia|].
  exists (map token_coord (tokens a)), lb. split; [|split].
  - now rewrite parse_loop_tokens by (assumption || lia).
  - exact Hlb.
  - rewrite parse_loop_app by (assumption || lia).
    rewrite parse_loop_acc.
    rewrite (parse_loop_fuel _ (S (length b))), Hlb;
      [reflexivity | rewrite length_app |]; lia.
Qed.

Lemma parse_coords_app_witness :
  exists la lb,
    parse_coords (str "1,2 3,4") = Some la /\
    parse_coords (str " 5,6") = Some lb /\
    parse_coords (str "1,2 3,4" ++ str " 5,6") = Some (la ++ lb).
Proof.
  apply parse_coords_app; [reflexivity|].
  right. exists " "%char, (str "5,6"). split; reflexivity.
Defined.

(** X3.  Tokens without a number are not rejected: when at every token
    [strtod] converts nothing (it returns zero and leaves the position where
    it was) and no token starts with a comma, every token gives the tuple
    [(0.0, 0.0)]. *)
Theorem parse_coords_no_number (text : LibC.text) :
  (forall t, In t (tokens text) ->
             strtod t = (0%float, t) /\ at_comma t = None) ->
  parse_coords text = Some (map (fun _ => (0, 0)%float) (tokens text)).
Proof.
  intros H. unfold parse_coords.
  assert (G : forall t, In t (tokens text) ->
                token_complete t = true /\ token_coord t = (0, 0)%float).
  { intros t Hin. destruct (H t Hin) as [Hs Hc].
    pose proof (tokens_nonspace text) as Hne.
    rewrite Forall_forall in Hne. destruct (Hne t Hin) as [Ht _].
    split.
    - unfold token_complete. rewrite Hs. cbn [snd]. rewrite Hc.
      destruct t as [|x t]; [congruence|]. rewrite Hs. cbn [snd].
      now rewrite Hc.
    - unfold token_coord. rewrite parse_one_eq. cbn [fst].
      unfold after_comma. rewrite Hs. cbn [fst snd]. rewrite Hc.
      now rewrite Hs. }
  rewrite parse_loop_tokens; [| lia |].
  - simpl. f_equal. apply map_ext_in. intros t Hin. now apply G.
  - apply forallb_forall. intros t Hin. now apply G.
Qed.

Lemma parse_coords_no_number_witness :
  parse_coords (str "abc -x ?") = Some [(0, 0); (0, 0); (0, 0)]%float.
Proof.
  apply (parse_coords_no_number (str "abc -x ?")).
  intros t [<-|[<-|[<-|[]]]]; split; reflexivity.
Defined.

(** X4.  A missing latitude is read as zero: when the last token of the
    text is one number that [strtod] converts whole, and the tokens before
    it are complete, the last tuple is [(0.0, number)]. *)
Theorem parse_coords_missing_latitude (text : LibC.text) ts a v :
  tokens text = ts ++ [a] -> forallb token_complete ts = true ->
  strtod a = (v, []) ->
  parse_coords text = Some (map token_coord ts ++ [(0%float, v)]).
Proof.
  intros Ht Hall Hv. unfold parse_coords.
  now rewrite (parse_loop_last _ _ _ ts a v) by (assumption || lia).
Qed.

Lemma parse_coords_missing_latitude_witness :
  parse_coords (str "1,2 7.5 ") = Some [(2, 1); (0, 7.5)]%float.
Proof.
  exact (parse_coords_missing_latitude (str "1,2 7.5 ") [str "1,2"]
           (str "7.5") 7.5%float eq_refl eq_refl eq_refl).
Defined.

(** X5.  One pass reads at most three tokens (longitude, latitude and
    altitude can each come from a token of their own), so the list has at
    least a third as many tuples as the text has tokens. *)
Theorem parse_coords_three_tokens (text : LibC.text) :
  exists l,
    parse_coords text = Some l /\
    (length (tokens text) <= 3 * length l)%nat.
Proof.
  unfold parse_coords.
  destruct (parse_loop_at_least (S (length text)) text []) as (l & Hl & Hn);
    [lia|].
  now exists l.
Qed.

(** X6.  What follows the second comma of a token is never checked: on a
    text whose tokens all have the form [lon,lat,rest], with [lon] and [lat]
    numbers that [strtod] converts whole and [rest] any characters (at least
    one), the list is the list of the tuples [(lat, lon)]. *)
Theorem parse_coords_altitude_unchecked (text : LibC.text) coords :
  Forall2 (fun t xy =>
             exists a b rest lon lat,
               t = (a ++ "," :: b ++ "," :: rest)%char /\
               numeral a lon /\ numeral b lat /\ rest <> [] /\
               xy = (lat, lon))
          (tokens text) coords ->
  parse_coords text = Some coords.
Proof.
  intros H.
  assert (G : forallb token_complete (tokens text) = true /\
              map token_coord (tokens text) = coords).
  { induction H as [|t xy ts cs Ht _ [IH1 IH2]]; [split; reflexivity|].
    destruct Ht as (a & b & rest & lon & lat & -> & (Ha & _ & Sa)
                    & (Hb & _ & Sb) & Hr & ->).
    assert (S1 : strtod (a ++ "," :: b ++ "," :: rest)%char
                 = (lon, ("," :: b ++ "," :: rest)%char))
      by (rewrite strtod_comma, Sa; reflexivity).
    assert (S2 : strtod (b ++ "," :: rest)%char = (lat, ("," :: rest)%char))
      by (rewrite strtod_comma, Sb; reflexivity).
    assert (Hc : token_complete (a ++ "," :: b ++ "," :: rest)%char = true).
    { apply token_complete_eq. rewrite S1. cbn. rewrite S2. cbn.
      split; [destruct b; discriminate | congruence]. }
    assert (Hx : token_coord (a ++ "," :: b ++ "," :: rest)%char
                 = (lat, lon)).
    { unfold token_coord. rewrite parse_one_eq, S1. cbn. now rewrite S2. }
    simpl. now rewrite Hc, Hx, IH1, IH2. }
  destruct G as [Hall <-]. unfold parse_coords.
  now rewrite parse_loop_tokens by (assumption || lia).
Qed.

Lemma parse_coords_altitude_unchecked_witness :
  parse_coords (str "1,2,abc 3,4,5,6,7") = Some [(2, 1); (4, 3)]%float.
Proof.
  apply (parse_coords_altitude_unchecked (str "1,2,abc 3,4,5,6,7")).
  repeat constructor.
  - exists (str "1"), (str "2"), (str "abc"), 1%float, 2%float.
    repeat split; discriminate.
  - exists (str "3"), (str "4"), (str "5,6,7"), 3%float, 4%float.
    repeat split; discriminate.
Defined.

End CkmlProps.


(* ================================================================== *)
(** * [cgeom.c]: items that are no tuples, rings, special values *)
(* ================================================================== *)

Module CgeomProps.

Import Binary64 Binary64Facts Cgeom CgeomFacts HaversineFacts.

(** ** Loops that fail *)

Lemma for_range_fails {S : Type} count start (body : nat -> S -> option S)
    s i :
  (start <= i < start + count)%nat -> (forall s', body i s' = None) ->
  for_range count start body s = None.
Proof.
  revert start s. induction count as [|count IH]; intros start s Hi Hb;
    [lia|].
  simpl. destruct (Nat.eq_dec start i) as [->|Hne]; [now rewrite Hb|].
  destruct (body start s) as [s'|]; simpl; [|reflexivity].
  apply IH; [lia | assumption].
Qed.

Lemma coords_or_other {F : Type} (seq : list (pyobj F)) :
  (exists ring, seq = map PyCoord ring) \/ In PyOther seq.
Proof.
  induction seq as [|[c|] seq IH]; [left; now exists [] | | right; now left].
  destruct IH as [[ring ->]|H]; [left; now exists (c :: ring) | right].
  now right.
Qed.

Lemma other_at {F : Type} (seq : list (pyobj F)) :
  In PyOther seq ->
  exists i, (i < length seq)%nat /\ nth_error seq i = Some PyOther.
Proof.
  intros [i Hi]%In_nth_error. exists i. split; [|assumption].
  apply nth_error_Some. congruence.
Qed.

Section Generic.

Context {F : Type} {A : Arith F}.
#[local] Open Scope arith_scope.

Lemma polygon_area_other (seq : list (pyobj F)) :
  (3 <= length seq)%nat -> In PyOther seq -> py_polygon_area seq = None.
Proof.
  intros Hn (i & Hi & Hnth)%other_at. unfold py_polygon_area.
  replace (length seq <? 3)%nat with false by (symmetry; now apply Nat.ltb_ge).
  rewrite (for_range_fails _ _ _ _ i); [reflexivity | lia|].
  intros [sl so]. unfold PySequence_Fast_GET_ITEM. now rewrite Hnth.
Qed.


(** ** Edges that never toggle *)

Lemma filter_none {E : Type} (P : E -> bool) (l : list E) :
  (forall e, In e l -> P e = false) -> filter P l = [].
Proof.
  induction l as [|e l IH]; intros H; simpl; [reflexivity|].
  rewrite (H e) by now left. apply IH. intros e' He'. apply H. now right.
Qed.

Lemma chain_in {X : Type} (l : list X) p q :
  In (p, q) (chain l) -> In p l /\ In q l.
Proof.
  induction l as [|a l IH]; [contradiction|].
  destruct l as [|b l]; [contradiction|].
  rewrite chain_cons2. intros [[= <- <-]|H].
  - split; [now left | right; now left].
  - destruct (IH H). split; now right.
Qed.

Lemma ring_edges_in {X : Type} (ring : list X) p q :
  In (p, q) (ring_edges ring) -> In p ring /\ In q ring.
Proof.
  destruct ring as [|a l]; [contradiction|]. unfold ring_edges.
  intros [Hp Hq]%chain_in.
  assert (G : forall x, In x ((a :: l) ++ [a]) -> In x (a :: l)).
  { intros x [H|[<-|[]]]%in_app_or; [assumption | now left]. }
  split; now apply G.
Qed.

Lemma chain_target {X : Type} (a : X) l w :
  In w l -> exists p, In (p, w) (chain (a :: l)).
Proof.
  revert a. induction l as [|b l IH]; intros a; [contradiction|].
  rewrite chain_cons2. intros [->|H].
  - exists a. now left.
  - destruct (IH b H) as [p Hp]. exists p. now right.
Qed.

(** Every vertex of a ring is the end of one of its edges. *)
Lemma closed_edges_target {X : Type} (l : list X) w :
  In w l -> exists p, In (p, w) (closed_edges l).
Proof.
  destruct l as [|a l]; [contradiction|]. unfold closed_edges.
  intros [->|H].
  - eexists. now left.
  - destruct (chain_target a l w H) as [p Hp]. exists p. now right.
Qed.

Lemma crossing_same_vertex (pt v : F * F) : crossing pt (v, v) = false.
Proof.
  destruct pt as [lat lon], v as [lat1 lon1]. unfold crossing.
  now rewrite xorb_nilpotent.
Qed.

Lemma even_odd_app_comm (pt : F * F) (x y : list (F * F)) :
  even_odd pt (x ++ y) = even_odd pt (y ++ x).
Proof.
  unfold even_odd.
  destruct (ring_edges_app x y) as (ex & ey & -> & ->).
  rewrite !filter_app, !length_app. f_equal. lia.
Qed.

Lemma even_odd_twice (pt v : F * F) (l : list (F * F)) :
  even_odd pt (v :: v :: l) = even_odd pt (v :: l).
Proof.
  unfold even_odd.
  change (ring_edges (v :: v :: l)) with ((v, v) :: ring_edges (v :: l)).
  simpl filter. now rewrite crossing_same_vertex.
Qed.

End Generic.

(** ** NaN and the infinities in binary64 *)

Section Special.

#[local] Open Scope float_scope.

Lemma mul_nan_r x : x * nan = nan.
Proof. now rewrite mul_comm, mul_nan_l. Qed.

Lemma add_nan_l x : nan + x = nan.
Proof. apply Prim2SF_inj. rewrite add_spec. reflexivity. Qed.

Lemma sub_nan_l x : nan - x = nan.
Proof. apply Prim2SF_inj. rewrite sub_spec. reflexivity. Qed.

Lemma sub_nan_r x : x - nan = nan.
Proof.
  apply Prim2SF_inj. rewrite sub_spec. change (Prim2SF nan) with S754_nan.
  now destruct (Prim2SF x).
Qed.

Lemma ltb_nan_l x : (nan <? x) = false.
Proof. rewrite ltb_spec. reflexivity. Qed.

Lemma ltb_nan_r x : (x <? nan) = false.
Proof.
  rewrite ltb_spec. change (Prim2SF nan) with S754_nan.
  now destruct (Prim2SF x) as [[]|[]| |[] m e].
Qed.

Lemma sub_zero_r x : x - 0 = x.
Proof.
  apply Prim2SF_inj. rewrite sub_spec.
  change (Prim2SF 0) with (S754_zero false).
  now destruct (Prim2SF x) as [[]|[]| |[] m e].
Qed.

Lemma nan_sf x : Prim2SF x = S754_nan -> x = nan.
Proof. intros H. apply Prim2SF_inj. now rewrite H. Qed.

Lemma not_finite_cases x :
  PrimFloat.is_finite x = false -> exists s, nan_or_inf s (Prim2SF x).
Proof.
  intros H. assert (N : ~ finite_sf (Prim2SF x))
    by (rewrite <- is_finite_spec; congruence).
  destruct (Prim2SF x) as [s|s| |s m e]; simpl in N; try tauto.
  - exists s. now right.
  - exists false. now left.
Qed.

(** *** Sums that meet an infinity *)

Lemma SFadd_nan_or_inf_r X Y s :
  nan_or_inf s Y -> nan_or_inf s (SFadd prec emax X Y).
Proof.
  intros [->| ->]; [left; now destruct X|].
  destruct X as [sx|sx| |sx m e]; simpl; unfold nan_or_inf; auto.
  destruct sx, s; auto.
Qed.

Lemma SFadd_nan_or_inf_l X Y s :
  nan_or_inf s X -> nan_or_inf s (SFadd prec emax X Y).
Proof.
  intros [->| ->]; [now left|].
  destruct Y as [sy|sy| |sy m e]; simpl; unfold nan_or_inf; auto.
  destruct s, sy; auto.
Qed.

Lemma sum_keeps l acc s :
  nan_or_inf s (Prim2SF acc) ->
  nan_or_inf s (Prim2SF (fold_left PrimFloat.add l acc)).
Proof.
  revert acc. induction l as [|x l IH]; intros acc H; [exact H|].
  simpl. apply IH. rewrite add_spec. now apply SFadd_nan_or_inf_l.
Qed.

Lemma sum_meets l acc x s :
  In x l -> nan_or_inf s (Prim2SF x) ->
  nan_or_inf s (Prim2SF (fold_left PrimFloat.add l acc)).
Proof.
  revert acc. induction l as [|y l IH]; intros acc Hin Hx; [contradiction|].
  simpl. destruct Hin as [->|Hin]; [|now apply IH].
  apply sum_keeps. rewrite add_spec. now apply SFadd_nan_or_inf_r.
Qed.

Lemma sum_from_nan l : fold_left PrimFloat.add l nan = nan.
Proof.
  induction l as [|x l IH]; [reflexivity|]. simpl. now rewrite add_nan_l.
Qed.

Lemma sum_has_nan l acc : In nan l -> fold_left PrimFloat.add l acc = nan.
Proof.
  revert acc. induction l as [|x l IH]; intros acc; [contradiction|].
  intros [->|H]; simpl; [|now apply IH].
  now rewrite add_nan_r, sum_from_nan.
Qed.

(** *** Signs *)

Lemma SFmul_sign X Y sx sy :
  has_sign sx X -> has_sign sy Y ->
  has_sign (xorb sx sy) (SFmul prec emax X Y).
Proof.
  destruct X as [s|s| |s m e], Y as [t|t| |t m' e']; simpl; intros; subst;
    try exact I; try reflexivity.
  apply binary_round_aux_sign.
Qed.

Lemma SFdiv_sign X Y sx sy :
  has_sign sx X -> has_sign sy Y ->
  has_sign (xorb sx sy) (SFdiv prec emax X Y).
Proof.
  destruct X as [s|s| |s m e], Y as [t|t| |t m' e']; simpl; intros; subst;
    try exact I; try reflexivity.
  destruct (SFdiv_core_binary prec emax (Z.pos m) e (Z.pos m') e')
    as [[mz ez] lz].
  apply binary_round_aux_sign.
Qed.

Lemma SFabs_sign X : has_sign false (SFabs X).
Proof. now destruct X. Qed.

Lemma has_sign_not_negative x :
  has_sign false (Prim2SF x) -> (x <? 0) = false.
Proof.
  rewrite ltb_spec. change (Prim2SF 0) with (S754_zero false).
  destruct (Prim2SF x) as [s|s| |s m e]; simpl; intros; subst; reflexivity.
Qed.

Lemma of_uint63_sign i : has_sign false (Prim2SF (of_uint63 i)).
Proof.
  rewrite of_uint63_spec. pose proof (Uint63.to_Z_bounded i) as [H _].
  destruct (Uint63.to_Z i) as [|m|m]; [reflexivity | | lia].
  unfold binary_normalize, binary_round.
  destruct (shl_align m 0 _) as [mz ez].
  apply binary_round_aux_sign.
Qed.

(** *** A value that is not finite, less the mean of its list *)

Lemma SFdiv_nan_or_inf X Y s :
  nan_or_inf s X -> has_sign false Y ->
  nan_or_inf s (SFdiv prec emax X Y).
Proof.
  intros [->| ->]; [now left|].
  destruct Y as [t|t| |t m e]; simpl; intros; subst; unfold nan_or_inf;
    rewrite ?xorb_false_r; auto.
Qed.

Lemma SFsub_nan_or_inf X Y s :
  nan_or_inf s X -> nan_or_inf s Y -> SFsub prec emax X Y = S754_nan.
Proof.
  intros [->| ->] [->| ->]; try reflexivity. simpl. now destruct s.
Qed.

Lemma sub_mean_nan (L : libm) (l : list float) x :
  In x l -> PrimFloat.is_finite x = false ->
  x - mean (A := binary64 L) l = nan.
Proof.
  intros Hin [s Hs]%not_finite_cases. apply nan_sf.
  rewrite sub_spec. apply (SFsub_nan_or_inf _ _ s); [assumption|].
  unfold mean, sum. cbn [div add of_ssize binary64].
  rewrite div_spec. apply SFdiv_nan_or_inf; [|apply of_uint63_sign].
  now apply (sum_meets _ _ x).
Qed.

End Special.

(** ** The properties, in every arithmetic *)


(** X8.  A point whose longitude lies on one side of all the vertices (the
    test [lon_i > lon] gives the same answer at every vertex) is outside,
    whatever its latitude. *)
Theorem point_in_polygon_one_side {F : Type} {A : Arith F}
    (lat lon : F) (ring : list (F * F)) (b : bool) :
  (forall v, In v ring -> (snd v > lon)%arith = b) ->
  py_point_in_polygon (lat, lon) (map PyCoord ring) = Some false.
Proof.
  intros H. destruct (Nat.ltb_spec (length ring) 3) as [Hlt|Hge].
  - unfold py_point_in_polygon. rewrite length_map.
    apply Nat.ltb_lt in Hlt. now rewrite Hlt.
  - rewrite point_in_polygon_coords by assumption. unfold even_odd.
    rewrite filter_none; [reflexivity|].
    intros [[lat1 lon1] [lat2 lon2]] [H1 H2]%ring_edges_in.
    pose proof (H _ H1) as E1. pose proof (H _ H2) as E2.
    cbn [snd] in E1, E2. unfold crossing. rewrite E1, E2.
    now rewrite xorb_nilpotent.
Qed.

Lemma point_in_polygon_one_side_witness :
  py_point_in_polygon (A := binary64 coarse_libm) (0.5, 2)%float
    (map PyCoord unit_square) = Some false.
Proof.
  apply (point_in_polygon_one_side (A := binary64 coarse_libm)
           0.5%float 2%float unit_square false).
  intros v [<-|[<-|[<-|[<-|[]]]]]; reflexivity.
Defined.

(** X9.  On a ring of three or more tuples, a vertex listed twice in a row
    changes nothing, and neither does closing the ring by repeating its first
    vertex at the end (as KML rings are written). *)
Theorem point_in_polygon_repeated_vertex {F : Type} {A : Arith F}
    (pt : F * F) :
  (forall pre v post,
      (3 <= length (pre ++ v :: post))%nat ->
      py_point_in_polygon pt (map PyCoord (pre ++ v :: v :: post))
      = py_point_in_polygon pt (map PyCoord (pre ++ v :: post))) /\
  (forall a l,
      (3 <= length (a :: l))%nat ->
      py_point_in_polygon pt (map PyCoord (a :: l ++ [a]))
      = py_point_in_polygon pt (map PyCoord (a :: l))).
Proof.
  split.
  - intros pre v post Hn.
    rewrite !point_in_polygon_coords
      by (rewrite length_app in *; simpl in *; lia).
    rewrite (even_odd_app_comm pt pre (v :: v :: post)).
    rewrite (even_odd_app_comm pt pre (v :: post)).
    f_equal. apply even_odd_twice.
  - intros a l Hn.
    rewrite !point_in_polygon_coords
      by (simpl in *; rewrite ?length_app; simpl; lia).
    change (a :: l ++ [a]) with ((a :: l) ++ [a]).
    rewrite (even_odd_app_comm pt (a :: l) [a]).
    f_equal. apply even_odd_twice.
Qed.

Lemma point_in_polygon_repeated_vertex_witness :
  py_point_in_polygon (A := binary64 coarse_libm) (0.5, 0.5)%float
    (map PyCoord (unit_square ++ [(0, 0)%float]))
  = py_point_in_polygon (A := binary64 coarse_libm) (0.5, 0.5)%float
      (map PyCoord unit_square).
Proof.
  refine (proj2 (point_in_polygon_repeated_vertex
                   (A := binary64 coarse_libm) (0.5, 0.5)%float)
            (0, 0)%float [(0, 1); (1, 1); (1, 0)]%float _).
  simpl. lia.
Defined.

(** ** The properties, in binary64 *)

Section Binary64.

Variable L : libm.

#[local] Open Scope float_scope.

Lemma crossing_nan_point lat lon e :
  PrimFloat.is_nan lat || PrimFloat.is_nan lon = true ->
  crossing (A := binary64 L) (lat, lon) e = false.
Proof.
  destruct e as [[lat1 lon1] [lat2 lon2]]. unfold crossing.
  cbn [lt binary64].
  intros [H|H]%orb_true_iff; apply is_nan_eq in H; subst.
  - destruct (xorb _ _); [apply ltb_nan_l | reflexivity].
  - now rewrite !ltb_nan_l.
Qed.

Lemma shoelace_area_sign (ring : list (float * float)) :
  has_sign false (Prim2SF (shoelace_area (A := binary64 L) ring)).
Proof.
  unfold shoelace_area. cbv zeta.
  set (sg := sum (map cross _)).
  change (has_sign false
            (Prim2SF (PrimFloat.abs sg / 2 * 111320 * 111320))).
  rewrite !mul_spec, div_spec, abs_spec.
  apply (SFmul_sign _ _ false false); [|reflexivity].
  apply (SFmul_sign _ _ false false); [|reflexivity].
  apply (SFdiv_sign _ _ false false); [apply SFabs_sign | reflexivity].
Qed.

Lemma project_not_finite (ring : list (float * float)) v :
  In v ring ->
  PrimFloat.is_finite (fst v) = false \/
  PrimFloat.is_finite (snd v) = false ->
  let w := project (A := binary64 L)
             (mean (A := binary64 L) (map fst ring))
             (mean (A := binary64 L) (map snd ring)) v in
  fst w = nan \/ snd w = nan.
Proof.
  intros Hin Hv. destruct v as [lat lon]. unfold project.
  cbn [fst snd sub mul binary64] in *. destruct Hv as [Hv|Hv].
  - right. apply sub_mean_nan; [|assumption].
    now apply (in_map fst) in Hin.
  - left. rewrite sub_mean_nan, mul_nan_l; [reflexivity | | assumption].
    now apply (in_map snd) in Hin.
Qed.

Lemma cross_nan_target (p w : float * float) :
  fst w = nan \/ snd w = nan -> cross (A := binary64 L) (p, w) = nan.
Proof.
  unfold cross. cbn [sub mul binary64]. intros [-> | ->].
  - now rewrite mul_nan_l, sub_nan_r.
  - now rewrite mul_nan_r, sub_nan_l.
Qed.

End Binary64.

(** X10.  A point with a NaN coordinate is inside no ring: every comparison
    with NaN is false, so no edge toggles the flag. *)
Theorem point_in_polygon_nan_point (L : libm) (lat lon : float)
    (ring : list (float * float)) :
  PrimFloat.is_nan lat || PrimFloat.is_nan lon = true ->
  py_point_in_polygon (A := binary64 L) (lat, lon) (map PyCoord ring)
  = Some false.
Proof.
  intros H. destruct (Nat.ltb_spec (length ring) 3) as [Hlt|Hge].
  - unfold py_point_in_polygon. rewrite length_map.
    apply Nat.ltb_lt in Hlt. now rewrite Hlt.
  - rewrite point_in_polygon_coords by assumption. unfold even_odd.
    rewrite filter_none; [reflexivity|].
    intros e _. now apply crossing_nan_point.
Qed.

Lemma point_in_polygon_nan_point_witness :
  py_point_in_polygon (A := binary64 coarse_libm) (nan, 0.5)%float
    (map PyCoord unit_square) = Some false.
Proof.
  exact (point_in_polygon_nan_point coarse_libm nan 0.5%float unit_square
           eq_refl).
Defined.

(** X11.  The area [py_polygon_area] returns is never negative: its sign
    bit is clear (it can be [+0.0], positive, [+inf]) or it is NaN. *)
Theorem polygon_area_not_negative (L : libm) (seq : list (pyobj float))
    (r : float) :
  py_polygon_area (A := binary64 L) seq = Some r ->
  (r <? 0)%float = false /\ sign_clear r = true.
Proof.
  intros H.
  assert (S : has_sign false (Prim2SF r)).
  { destruct (Nat.ltb_spec (length seq) 3) as [Hlt|Hge].
    - unfold py_polygon_area in H. apply Nat.ltb_lt in Hlt.
      rewrite Hlt in H. injection H as <-. reflexivity.
    - destruct (coords_or_other seq) as [[ring ->]|Ho].
      + rewrite length_map in Hge.
        rewrite (polygon_area_coords ring Hge) in H. injection H as <-.
        apply shoelace_area_sign.
      + rewrite (polygon_area_other seq Hge Ho) in H. discriminate H. }
  split; [now apply has_sign_not_negative | now apply sign_clear_spec].
Qed.

Lemma polygon_area_not_negative_witness :
  (12392142400 <? 0)%float = false /\ sign_clear 12392142400 = true.
Proof.
  exact (polygon_area_not_negative coarse_libm (map PyCoord unit_square)
           12392142400%float eq_refl).
Defined.

(** X12.  On a ring of three or more tuples, a coordinate that is NaN or
    infinite makes the area NaN: the mean of the coordinates is then NaN or
    that infinity, and the vertex less the mean is NaN. *)
Theorem polygon_area_not_finite (L : libm) (ring : list (float * float)) :
  (3 <= length ring)%nat ->
  (exists v, In v ring /\
             (PrimFloat.is_finite (fst v) = false \/
              PrimFloat.is_finite (snd v) = false)) ->
  py_polygon_area (A := binary64 L) (map PyCoord ring) = Some nan.
Proof.
  intros Hn (v & Hin & Hv). rewrite polygon_area_coords by assumption.
  f_equal. unfold shoelace_area. cbv zeta.
  pose proof (project_not_finite L ring v Hin Hv) as Hw.
  cbv zeta in Hw.
  set (proj := project _ _) in *.
  destruct (closed_edges_target (map proj ring) (proj v)
              (in_map proj ring v Hin)) as [p Hp].
  assert (Hs : sum (A := binary64 L)
                 (map (cross (A := binary64 L))
                      (closed_edges (map proj ring))) = nan).
  { unfold sum. cbn [add binary64]. apply sum_has_nan.
    rewrite <- (cross_nan_target L p (proj v) Hw).
    now apply (in_map (cross (A := binary64 L))). }
  rewrite Hs. reflexivity.
Qed.

Lemma polygon_area_not_finite_witness :
  py_polygon_area (A := binary64 coarse_libm)
    (map PyCoord [(0, 0); (infinity, 1); (1, 1)]%float) = Some nan.
Proof.
  apply (polygon_area_not_finite coarse_libm
           [(0, 0); (infinity, 1); (1, 1)]%float); [simpl; lia|].
  exists (infinity, 1)%float. split; [right; now left | now left].
Defined.

(** X13.  The distance depends on the two longitudes through their
    difference [lon2 - lon1] only; along a meridian (equal finite
    longitudes) it does not depend on the longitude at all. *)
Theorem haversine_longitude_difference (L : libm) :
  (forall lat1 lon1 lat2 lon2,
      py_haversine_distance (A := binary64 L) (lat1, lon1) (lat2, lon2)
      = py_haversine_distance (A := binary64 L)
          (lat1, 0%float) (lat2, (lon2 - lon1)%float)) /\
  (forall lat1 lat2 lon,
      PrimFloat.is_finite lon = true ->
      py_haversine_distance (A := binary64 L) (lat1, lon) (lat2, lon)
      = py_haversine_distance (A := binary64 L)
          (lat1, 0%float) (lat2, 0%float)).
Proof.
  assert (G : forall lat1 lon1 lat2 lon2,
      py_haversine_distance (A := binary64 L) (lat1, lon1) (lat2, lon2)
      = py_haversine_distance (A := binary64 L)
          (lat1, 0%float) (lat2, (lon2 - lon1)%float)).
  { intros. rewrite !haversine_eq. cbv zeta. now rewrite sub_zero_r. }
  split; [exact G|].
  intros lat1 lat2 lon Hlon. rewrite G. now rewrite sub_self.
Qed.

Lemma haversine_longitude_difference_witness :
  py_haversine_distance (A := binary64 coarse_libm)
    (10, 33.5)%float (20, 33.5)%float
  = py_haversine_distance (A := binary64 coarse_libm)
      (10, 0)%float (20, 0)%float.
Proof.
  exact (proj2 (haversine_longitude_difference coarse_libm)
           10%float 20%float 33.5%float eq_refl).
Defined.

(** X14.  With a libm whose [sin] is odd, exchanging the longitudes of the
    two points, or their latitudes, leaves the distance unchanged: the two
    diagonals of a latitude-longitude rectangle get the same double. *)
Theorem haversine_exchange (L : libm) :
  libm_laws L ->
  forall lat1 lon1 lat2 lon2,
    py_haversine_distance (A := binary64 L) (lat1, lon1) (lat2, lon2)
    = py_haversine_distance (A := binary64 L) (lat1, lon2) (lat2, lon1) /\
    py_haversine_distance (A := binary64 L) (lat1, lon1) (lat2, lon2)
    = py_haversine_distance (A := binary64 L) (lat2, lon1) (lat1, lon2).
Proof.
  intros laws lat1 lon1 lat2 lon2.
  assert (G : py_haversine_distance (A := binary64 L)
                (lat1, lon1) (lat2, lon2)
              = py_haversine_distance (A := binary64 L)
                  (lat1, lon2) (lat2, lon1)).
  { rewrite !haversine_eq. cbv zeta.
    fold (half_sin L (lon2 - lon1)). fold (half_sin L (lon1 - lon2)).
    now rewrite (half_sin_term_swap L laws _ lon1 lon2). }
  split; [exact G|].
  rewrite G. apply (haversine_sym L laws).
Qed.

Lemma haversine_exchange_witness :
  py_haversine_distance (A := binary64 coarse_libm)
    (10, 30)%float (20, 40)%float
  = py_haversine_distance (A := binary64 coarse_libm)
      (10, 40)%float (20, 30)%float.
Proof.
  exact (proj1 (haversine_exchange coarse_libm coarse_libm_laws
                  10%float 30%float 20%float 40%float)).
Defined.

(** X15.  With a libm that returns NaN for [cos] of an infinity or NaN and
    for [atan2] of NaN, a latitude whose value in radians is not finite (a
    NaN, an infinity, or a finite latitude so large that
    [lat * M_PI] overflows) makes the distance NaN. *)
Theorem haversine_latitude_not_finite (L : libm) :
  libm_laws L ->
  forall lat1 lon1 lat2 lon2,
    PrimFloat.is_finite
      (lat1 * M_PI (A := binary64 L) / lit (Arith := binary64 L) 180 0)%float
    = false \/
    PrimFloat.is_finite
      (lat2 * M_PI (A := binary64 L) / lit (Arith := binary64 L) 180 0)%float
    = false ->
    py_haversine_distance (A := binary64 L) (lat1, lon1) (lat2, lon2) = nan.
Proof.
  intros laws lat1 lon1 lat2 lon2 H.
  assert (G : forall a la b lb,
      PrimFloat.is_finite (a * pi64 / 180)%float = false ->
      py_haversine_distance (A := binary64 L) (a, la) (b, lb) = nan).
  { intros a la b lb Ha. rewrite haversine_eq. cbv zeta.
    rewrite (cos_invalid L laws _ Ha).
    rewrite !mul_nan_l, add_nan_r.
    change (PrimFloat.sqrt nan) with nan. rewrite sub_nan_r.
    change (PrimFloat.sqrt nan) with nan.
    rewrite (atan2_nan L laws nan nan eq_refl).
    reflexivity. }
  destruct H as [H|H]; [now apply G|].
  rewrite (haversine_sym L laws). now apply G.
Qed.

Lemma haversine_latitude_not_finite_witness :
  py_haversine_distance (A := binary64 coarse_libm)
    (0, 10)%float (infinity, 20)%float = nan.
Proof.
  exact (haversine_latitude_not_finite coarse_libm coarse_libm_laws
           0%float 10%float infinity 20%float (or_intror eq_refl)).
Defined.

(** X16.  With a libm that satisfies the laws, for all inputs
    [py_haversine_distance] is the central angle scaled by the radius
    [6371000.0], and its value is never negative and never infinite (it is
    NaN or a finite double that is not below zero). *)
Theorem haversine_not_negative (L : libm) :
  libm_laws L ->
  forall p1 p2,
    let d := py_haversine_distance (A := binary64 L) p1 p2 in
    d = (6371000 * central_angle (A := binary64 L) p1 p2)%float /\
    (d <? 0)%float = false /\
    PrimFloat.is_infinity d = false.
Proof.
  intros laws p1 p2. split.
  - destruct p1, p2. reflexivity.
  - now apply haversine_range.
Qed.

Lemma haversine_not_negative_witness :
  let d := py_haversine_distance (A := binary64 coarse_libm)
             (37.7, -122.1)%float (37.8, -122.2)%float in
  d = (6371000 * central_angle (A := binary64 coarse_libm)
                   (37.7, -122.1)%float (37.8, -122.2)%float)%float /\
  (d <? 0)%float = false /\
  PrimFloat.is_infinity d = false.
Proof.
  exact (haversine_not_negative coarse_libm coarse_libm_laws
           (37.7, -122.1)%float (37.8, -122.2)%float).
Defined.

End CgeomProps.
